(** * runv shim: proxy/launch engine (cli/shim.go)

    A shallow embedding of [cli/shim.go] and the properties of it that the
    design document states.

    The Go code is effectful throughout: it opens files, spawns processes,
    talks to the sandbox agent, subscribes to signals and starts goroutines.
    Every Go function is embedded as a program in a small free monad whose
    operations are the calls the function makes to the outside (the OS, the
    agent, the Go runtime).  Sequential code is run by an interpreter over an
    explicit world (file table, descriptor table, process table, signal
    runtime) that logs every call; goroutines are run by an interleaving
    step relation over the same programs. *)

From Stdlib Require Import ZArith Ascii String Decimal DecimalString DecimalZ.
From stdpp Require Import base option list strings gmap fin_maps.

Set Implicit Arguments.
Unset Strict Implicit.
Set Default Proof Using "Type".

Local Open Scope Z_scope.

(** ** Programs: calls to the outside and continuations *)

Module Prog.
Section Prog.
(** [E X] is the type of outside calls that answer with an [X]. *)
Context {E : Type -> Type}.

Inductive prog (R : Type) : Type :=
| Ret (r : R)
| Call {X : Type} (op : E X) (k : X -> prog R).

Fixpoint bind {A B : Type} (p : prog A) (f : A -> prog B) : prog B :=
  match p with
  | Ret a => f a
  | Call op k => Call op (fun x => bind (k x) f)
  end.

Definition call {X : Type} (op : E X) : prog X := Call op (fun x => Ret x).

(** One logged call: the operation together with the answer it got. *)
Inductive event : Type :=
| Ev {X : Type} (op : E X) (x : X).

(** The world answers a call and moves to a new world, or never answers
    ([None]): the caller stays blocked in that call. *)
Context {W : Type} (handle : forall X : Type, E X -> W -> option (X * W)).

Record run (R : Type) : Type := mkRun {
  log : list (event * W);   (* calls in program order, each with the world after it *)
  result : option R;        (* [None]: blocked for ever in a call *)
  final : W
}.

Fixpoint exec {R : Type} (p : prog R) (w : W) : run R :=
  match p with
  | Ret r => mkRun [] (Some r) w
  | Call op k =>
      match handle op w with
      | None => mkRun [] None w
      | Some (x, w') =>
          let r := exec (k x) w' in
          mkRun ((Ev op x, w') :: log r) (result r) (final r)
      end
  end.

Definition trace {R : Type} (r : run R) : list event := (log r).*1.
End Prog.
Arguments prog : clear implicits.
Arguments event : clear implicits.
End Prog.
Import Prog.

Declare Scope prog_scope.
Delimit Scope prog_scope with prog.
Notation "x <- p ;; q" := (bind p (fun x => q))
  (at level 100, p at next level, right associativity) : prog_scope.
Notation "p ;;; q" := (bind p (fun _ => q))
  (at level 100, right associativity) : prog_scope.

(** ** Go values *)

(** Go's [error]: the errno values the code can meet and formatted errors. *)
Inductive error : Type :=
| EEXIST | ENOENT | EACCES | EIO | ENOSPC | ECONNREFUSED | ESRCH
| Errorf (msg : string)
| Wrapf (msg : string) (cause : error).

#[global] Instance error_eq_dec : EqDecision error.
Proof. solve_decision. Defined.

(** [fmt.Sprintf("%d", n)]. *)
Definition fmt_d (n : Z) : string := NilZero.string_of_int (Z.to_int n).



(** [strings.Join]. *)
Fixpoint strings_Join (l : list string) (sep : string) : string :=
  match l with
  | [] => ""
  | [x] => x
  | x :: xs => x +:+ sep +:+ strings_Join xs sep
  end.

(** ** path/filepath on Unix

    [filepath.Clean], [Dir], [Base] and [Join] of the Go standard library,
    for the separator ['/'] and no volume names. *)

Module filepath.

Definition isSep (c : ascii) : bool := Ascii.eqb c "/".

(** The elements between separators: ["a//b"] gives ["a"; ""; "b"]. *)
Fixpoint split (s : string) : list string :=
  match s with
  | EmptyString => [EmptyString]
  | String c s' =>
      if isSep c then EmptyString :: split s'
      else match split s' with
           | x :: xs => String c x :: xs
           | [] => [String c EmptyString]
           end
  end.

(** Clean's loop over the elements; [out] is the output so far, last
    element first.  Empty and ["."] elements are dropped, [".."] removes
    the element before it, is dropped at the root, and is kept at the
    start of a relative path. *)
Fixpoint clean_elems (rooted : bool) (out : list string) (elems : list string)
  : list string :=
  match elems with
  | [] => rev out
  | e :: es =>
      if bool_decide (e = "" \/ e = ".") then clean_elems rooted out es
      else if bool_decide (e = "..") then
        match out with
        | top :: out' =>
            if bool_decide (top = "..") then clean_elems rooted (e :: out) es
            else clean_elems rooted out' es
        | [] =>
            if rooted then clean_elems rooted [] es
            else clean_elems rooted [e] es
        end
      else clean_elems rooted (e :: out) es
  end.

Definition rooted (path : string) : bool :=
  match path with
  | String c _ => isSep c
  | EmptyString => false
  end.

Definition Clean (path : string) : string :=
  if bool_decide (path = "") then "."
  else
    let body := strings_Join (clean_elems (rooted path) [] (split path)) "/" in
    if rooted path then "/" +:+ body
    else if bool_decide (body = "") then "." else body.

(** [path] up to and including its last separator, and what follows it. *)
Fixpoint cut_last (s : string) : option (string * string) :=
  match s with
  | EmptyString => None
  | String c s' =>
      match cut_last s' with
      | Some (d, b) => Some (String c d, b)
      | None => if isSep c then Some (String c EmptyString, s') else None
      end
  end.

Fixpoint strip_trailing (s : string) : string :=
  match s with
  | EmptyString => EmptyString
  | String c s' =>
      match strip_trailing s' with
      | EmptyString => if isSep c then EmptyString else String c EmptyString
      | t => String c t
      end
  end.

Definition Dir (path : string) : string :=
  match cut_last path with
  | Some (d, _) => Clean d
  | None => Clean ""
  end.

Definition Base (path : string) : string :=
  if bool_decide (path = "") then "."
  else
    let p := strip_trailing path in
    let p := match cut_last p with Some (_, b) => b | None => p end in
    if bool_decide (p = "") then "/" else p.

(** [filepath.Join(elem...)]: leading empty elements are ignored, the rest
    is joined with a separator and cleaned. *)
Fixpoint Join (elem : list string) : string :=
  match elem with
  | [] => ""
  | e :: es =>
      if bool_decide (e = "") then Join es else Clean (strings_Join elem "/")
  end.

End filepath.


(** ** The launcher's outside world (createShim, createPidFile) *)

(** [*os.File]: an open descriptor and the name it was opened under. *)
Record File : Type := mkFile { fd : nat; fname : string }.

#[global] Instance File_eq_dec : EqDecision File.
Proof. solve_decision. Defined.

Inductive open_flag : Type := O_RDWR | O_CREATE | O_EXCL | O_SYNC.

#[global] Instance open_flag_eq_dec : EqDecision open_flag.
Proof. solve_decision. Defined.

(** [syscall.SysProcAttr], the three fields createShim sets. *)
Record SysProcAttr : Type := mkAttr {
  Setctty : bool;
  Setsid : bool;
  Cloneflags : Z
}.

Definition CLONE_NEWNET : Z := 0x40000000.

(** What a child's standard stream is connected to. *)
Inductive stream : Type :=
| os_Stdin | os_Stdout | os_Stderr
| on_file (f : File).

(** [exec.Cmd]. *)
Record Cmd : Type := mkCmd {
  Path : string;
  Args : list string;
  Dir : string;
  Attr : SysProcAttr;
  Stdin : stream;
  Stdout : stream;
  Stderr : stream
}.

(** [*os.Process]. *)
Record Process : Type := mkProcess { Pid : Z }.

(** [specs.Process]: createShim reads [Terminal] only. *)
Record specs_Process : Type := mkSpec { Terminal : bool }.

(** [runvOptions]: the command's flags, the global flags, and the two
    fields the launcher reads.  An unset string flag reads as [""]. *)
Record runvOptions : Type := mkOptions {
  flags : gmap string string;
  global_flags : gmap string string;
  global_bools : gset string;
  attach : bool;
  withContainer : option Process   (* only [Pid] of the container state is read *)
}.

Definition opt_String (o : runvOptions) (name : string) : string :=
  default "" (flags o !! name).
Definition opt_GlobalString (o : runvOptions) (name : string) : string :=
  default "" (global_flags o !! name).
Definition opt_GlobalBool (o : runvOptions) (name : string) : bool :=
  bool_decide (name ∈ global_bools o).

(** The calls createShim and the functions under it make. *)
Inductive LOp : Type -> Type :=
| OpenFile (name : string) (flag : list open_flag) (perm : Z) : LOp (File + error)
| FileClose (f : File) : LOp unit
| Fprintf (f : File) (s : string) : LOp (option error)
| Rename (oldpath newpath : string) : LOp (option error)
| PtyOpen : LOp (File * File + error)
| Sendtty (socket : string) (master : File) : LOp (option error)
| Executable : LOp (string + error)
| Arg0 : LOp string
| Infof (msg : string) : LOp unit
| Start (cmd : Cmd) : LOp (Process + error)
| NsSetRun (pid : Z) (cmd : Cmd) : LOp (Process + error)
| Kill (p : Process) : LOp unit.

(** What the code cannot decide: failures of the OS and of the helpers. *)
Record oracle : Type := mkOracle {
  denied : list string;                 (* names whose open fails with EACCES *)
  write_fault : option (nat * error);   (* bytes written before a write fails *)
  rename_fault : option error;
  pty_fault : option error;
  sendtty_fault : option error;
  self_exe : string + error;            (* osext.Executable() *)
  arg0 : string;                        (* os.Args[0] *)
  ns_fault : option error;              (* entering the namespace fails *)
  spawn : Z + error                     (* the pid of the child, or why exec failed *)
}.

Record world : Type := mkWorld {
  files : gmap string string;     (* name ↦ content *)
  open_fds : gset nat;            (* descriptors open in the launching process *)
  next_fd : nat;
  children : gmap Z bool;         (* pid ↦ still running *)
  os : oracle
}.

Definition set_files (w : world) (fs : gmap string string) : world :=
  mkWorld fs (open_fds w) (next_fd w) (children w) (os w).

Definition open_fd (w : world) (name : string) : File * world :=
  (mkFile (next_fd w) name,
   mkWorld (files w) ({[next_fd w]} ∪ open_fds w) (S (next_fd w)) (children w) (os w)).

Definition close_fd (w : world) (f : File) : world :=
  mkWorld (files w) (open_fds w ∖ {[fd f]}) (next_fd w) (children w) (os w).

Definition set_child (w : world) (pid : Z) (running : bool) : world :=
  mkWorld (files w) (open_fds w) (next_fd w) (<[pid := running]> (children w)) (os w).

Definition has_flag (f : open_flag) (l : list open_flag) : bool := bool_decide (f ∈ l).

Definition take_string (n : nat) (s : string) : string := String.substring 0 n s.

Definition do_open (name : string) (flag : list open_flag) (w : world)
  : (File + error) * world :=
  if bool_decide (name ∈ denied (os w)) then (inr EACCES, w)
  else match files w !! name with
       | Some _ =>
           if has_flag O_CREATE flag && has_flag O_EXCL flag then (inr EEXIST, w)
           else let '(f, w') := open_fd w name in (inl f, w')
       | None =>
           if has_flag O_CREATE flag
           then let '(f, w') := open_fd (set_files w (<[name := ""]> (files w))) name in
                (inl f, w')
           else (inr ENOENT, w)
       end.

Definition do_write (f : File) (s : string) (w : world) : option error * world :=
  match write_fault (os w) with
  | Some (n, e) =>
      (Some e, set_files w (alter (fun old => old +:+ take_string n s) (fname f) (files w)))
  | None =>
      (None, set_files w (alter (fun old => old +:+ s) (fname f) (files w)))
  end.

(** rename(2): the new name is replaced in one step if it exists. *)
Definition do_rename (oldpath newpath : string) (w : world) : option error * world :=
  match files w !! oldpath with
  | None => (Some ENOENT, w)
  | Some content =>
      match rename_fault (os w) with
      | Some e => (Some e, w)
      | None => (None, set_files w (<[newpath := content]> (delete oldpath (files w))))
      end
  end.

Definition do_start (w : world) : (Process + error) * world :=
  match spawn (os w) with
  | inl pid => (inl (mkProcess pid), set_child w pid true)
  | inr e => (inr e, w)
  end.

Definition handle (X : Type) (op : LOp X) (w : world) : option (X * world) :=
  match op in LOp X return option (X * world) with
  | OpenFile name flag _ => Some (do_open name flag w)
  | FileClose f => Some (tt, close_fd w f)
  | Fprintf f s => Some (do_write f s w)
  | Rename o n => Some (do_rename o n w)
  | PtyOpen =>
      match pty_fault (os w) with
      | Some e => Some (inr e, w)
      | None =>
          let '(m, w1) := open_fd w "/dev/ptmx" in
          let '(s, w2) := open_fd w1 "/dev/pts/0" in
          Some (inl (m, s), w2)
      end
  | Sendtty _ _ => Some (sendtty_fault (os w), w)
  | Executable => Some (self_exe (os w), w)
  | Arg0 => Some (arg0 (os w), w)
  | Infof _ => Some (tt, w)
  | Start _ => Some (do_start w)
  | NsSetRun _ _ =>
      match ns_fault (os w) with
      | Some e => Some (inr e, w)
      | None => Some (do_start w)
      end
  | Kill p => Some (tt, set_child w (Pid p) false)
  end.

Definition lprog := prog LOp.
Definition lrun {R : Type} (p : lprog R) (w : world) : run R := exec handle p w.

Local Open Scope prog_scope.

(** ** cli/shim.go: createPidFile, prepareKataShim, prepareRunvShim, createShim *)

Definition KataShimBinary : string := "/usr/libexec/kata-containers/kata-shim".

(** The name of the temporary file createPidFile writes to. *)
Definition tmpName (path : string) : string :=
  let tmpDir := filepath.Dir path in
  filepath.Join [tmpDir; "." +:+ filepath.Base path].

Definition createPidFile (path : string) (pid : Z) : lprog (option error) :=
  r <- call (OpenFile (tmpName path) [O_RDWR; O_CREATE; O_EXCL; O_SYNC] 438 (* 0666 *));;
  match r with
  | inr err => Ret (Some err)
  | inl f =>
      err <- call (Fprintf f (fmt_d pid));;
      call (FileClose f);;;
      match err with
      | Some e => Ret (Some e)
      | None => call (Rename (tmpName path) path)
      end
  end.

Definition prepareKataShim (options : runvOptions) (container process : string)
    (terminal : bool) : lprog (string * list string + error) :=
  let args := ["kata-shim"] in
  let args := if opt_GlobalBool options "debug" then args ++ ["--log"; "debug"] else args in
  let agentAddr :=
    filepath.Join [opt_GlobalString options "root"; container; "sandbox"; "kata-agent.sock"] in
  let args := args ++ ["--agent"; agentAddr; "--container"; container; "--exec-id"; process] in
  let args := if terminal then args ++ ["--terminal"] else args in
  Ret (inl (KataShimBinary, args)).

Definition prepareRunvShim (options : runvOptions) (container process : string)
    (terminal : bool) : lprog (string * list string + error) :=
  r <- call Executable;;
  match r with
  | inr err =>
      a0 <- call Arg0;;
      Ret (inr (Wrapf ("cannot find self executable path for " +:+ a0) err))
  | inl path =>
      let args := ["runv"; "--root"; opt_GlobalString options "root"] in
      let args :=
        if bool_decide (opt_GlobalString options "log_dir" <> "")
        then args ++ ["--log_dir";
                      filepath.Join [opt_GlobalString options "log_dir"; "shim-" +:+ container]]
        else args in
      let args := if opt_GlobalBool options "debug" then args ++ ["--debug"] else args in
      let args := args ++ ["shim"; "--container"; container; "--process"; process] in
      let args := args ++ ["--proxy-stdio"; "--proxy-exit-code"; "--proxy-signal"] in
      let args := if terminal then args ++ ["--proxy-winsize"] else args in
      Ret (inl (path, args))
  end.

(** The console of the child: [tty] is [None] for Go's nil. *)
Definition open_console (options : runvOptions) : lprog (option File + error) :=
  if bool_decide (opt_String options "console" <> "") then
    r <- call (OpenFile (opt_String options "console") [O_RDWR] 0);;
    match r with
    | inr err => Ret (inr err)
    | inl tty => Ret (inl (Some tty))
    end
  else if bool_decide (opt_String options "console-socket" <> "") then
    r <- call PtyOpen;;
    match r with
    | inr err => Ret (inr err)
    | inl (ptymaster, tty) =>
        e <- call (Sendtty (opt_String options "console-socket") ptymaster);;
        match e with
        | Some err => Ret (inr err)
        | None => call (FileClose ptymaster);;; Ret (inl (Some tty))
        end
    end
  else Ret (inl None).

Definition is_nil {A : Type} (o : option A) : bool :=
  match o with Some _ => false | None => true end.

(** [defer tty.Close()], registered in the branch where [tty] is not nil and
    run at every return below it. *)
Definition deferred_close (tty : option File) : lprog unit :=
  match tty with
  | Some f => call (FileClose f)
  | None => Ret tt
  end.

(** The choice of the shim binary and its arguments. *)
Definition prepare_shim (options : runvOptions) (container process : string)
    (terminal : bool) : lprog (string * list string + error) :=
  if bool_decide (opt_GlobalString options "agent" <> "kata")
  then prepareRunvShim options container process terminal
  else prepareKataShim options container process terminal.

Definition set_Cloneflags (cmd : Cmd) (fl : Z) : Cmd :=
  mkCmd (Path cmd) (Args cmd) (Dir cmd)
        (mkAttr (Setctty (Attr cmd)) (Setsid (Attr cmd)) fl)
        (Stdin cmd) (Stdout cmd) (Stderr cmd).

(** [cmd.Start()], in a new network namespace or in the container's. *)
Definition start_cmd (options : runvOptions) (cmd : Cmd) : lprog (Process + error) :=
  match withContainer options with
  | None => call (Start (set_Cloneflags cmd CLONE_NEWNET))
  | Some c => call (NsSetRun (Pid c) cmd)
  end.

(** Starting the child and recording its pid: createShim from the point
    where the binary and its arguments are known. *)
Definition launch (options : runvOptions) (tty : option File) (path : string)
    (args : list string) : lprog (Process + error) :=
  call (Infof ("starting shim with args " +:+ strings_Join args " "));;;
  let attr := mkAttr (negb (is_nil tty)) (negb (is_nil tty) || negb (attach options)) 0 in
  let cmd :=
    match tty with
    | None => mkCmd path args "/" attr os_Stdin os_Stdout os_Stderr
    | Some t => mkCmd path args "/" attr (on_file t) (on_file t) (on_file t)
    end in
  st <- start_cmd options cmd;;
  match st with
  | inr err => deferred_close tty;;; Ret (inr err)
  | inl proc =>
      if bool_decide (opt_String options "pid-file" <> "") then
        e <- createPidFile (opt_String options "pid-file") (Pid proc);;
        match e with
        | Some err =>
            call (Kill proc);;;
            deferred_close tty;;;
            Ret (inr err)
        | None => deferred_close tty;;; Ret (inl proc)
        end
      else deferred_close tty;;; Ret (inl proc)
  end.

Definition createShim (options : runvOptions) (container process : string)
    (spec : specs_Process) : lprog (Process + error) :=
  c <- open_console options;;
  match c with
  | inr err => Ret (inr err)
  | inl tty =>
      pa <- prepare_shim options container process (Terminal spec);;
      match pa with
      | inr err => Ret (inr err)
      | inl (path, args) => launch options tty path args
      end
  end.

(** ** Sample worlds *)

(** An OS on which nothing fails; the child gets pid 4242. *)
Definition calm : oracle :=
  mkOracle [] None None None None (inl "/usr/bin/runv") "runv" None (inl 4242).

(** A process with descriptors 0-2 open and the given files. *)
Definition world_of (fs : gmap string string) (o : oracle) : world :=
  mkWorld fs {[0%nat; 1%nat; 2%nat]} 3 ∅ o.


(** ** The shim's outside world (shimCommand, proxyStdio, forwardAllSignals) *)

(** [syscall.Signal] numbers (Linux). *)
Definition SIGUSR1 : Z := 10.
Definition SIGPIPE : Z := 13.
Definition SIGCHLD : Z := 17.
Definition SIGWINCH : Z := 28.

(** [os.Signal] is an interface: a value is a [syscall.Signal] or something
    else that implements it. *)
Inductive os_Signal : Type :=
| syscall_Signal (n : Z)
| other_Signal (name : string).

#[global] Instance os_Signal_eq_dec : EqDecision os_Signal.
Proof. solve_decision. Defined.

(** The ends of the copy loops. *)
Inductive endpoint : Type :=
| local_Stdin | local_Stdout | local_Stderr
| inPipe | outPipe | errPipe.

#[global] Instance endpoint_eq_dec : EqDecision endpoint.
Proof. solve_decision. Defined.

(** The goroutines the shim starts. *)
Inductive goroutine : Type :=
| copy_stdin (container process : string)
| copy_stdout
| copy_stderr
| signal_loop (sigc : nat) (container process : string).

(** [cli.ExitError]. *)
Record ExitError : Type := NewExitError { message : string; exitCode : Z }.

(** The calls the shim makes.  A channel is named by its number; the
    connection [h] is the one the command opened. *)
Inductive SOp : Type -> Type :=
| NewKataAgent (sock : string) : SOp (option error)
| MakeChan (capacity : nat) : SOp nat
| SignalNotify (c : nat) (sigs : list Z) : SOp unit    (* no signals listed: all *)
| SignalIgnore (sigs : list Z) : SOp unit
| SignalStop (c : nat) : SOp unit
| Recv (c : nat) : SOp os_Signal
| WgAdd (delta : Z) : SOp unit
| WgDone : SOp unit
| WgWait : SOp unit
| Go (g : goroutine) : SOp unit
| StdioPipe (container process : string) : SOp unit
| IoCopy (dst src : endpoint) : SOp (option error)
| CloseStdin (container process : string) : SOp (option error)
| SignalProcess (container process : string) (sig : Z) : SOp (option error)
| WaitProcess (container process : string) : SOp Z
| SetRawTerminal : SOp (Z + error)
| RestoreTerminal (saved : Z) : SOp unit
| MonitorTtySize (container process : string) : SOp unit
| Glog_Infof (msg : string) (args : list (option error)) : SOp unit
| Glog_Errorf (msg : string) (args : list (option error)) : SOp unit
| Stderr_Fprintf (msg : string) (args : list (option error)) : SOp unit.

Definition sprog := prog SOp.

(** A channel of signals with its subscription. *)
Record chan_rec : Type := mkChan {
  capacity : nat;
  buf : list os_Signal;
  mask : Z -> bool        (* the signals the channel is notified of *)
}.

(** The answers of the agent, the terminal and the streams. *)
Record shim_oracle : Type := mkShimOracle {
  connect : option error;
  raw : Z + error;                              (* saved terminal state, or an error *)
  exit_code : Z;                                (* what WaitProcess reports *)
  copy_end : endpoint -> option (option error); (* [None]: this copy never returns *)
  close_stdin : option error;
  signal_err : Z -> option error;
  outputs_end : bool                            (* both output loops reach wg.Done() *)
}.

Record shim_world : Type := mkShimWorld {
  chans : list chan_rec;   (* channel [c] is [chans !! c] *)
  arrivals : list Z;       (* host signals that arrive while a receive blocks *)
  wg : Z;                  (* the WaitGroup counter *)
  senv : shim_oracle
}.

Definition set_chans (w : shim_world) (cs : list chan_rec) : shim_world :=
  mkShimWorld cs (arrivals w) (wg w) (senv w).
Definition set_wg (w : shim_world) (n : Z) : shim_world :=
  mkShimWorld (chans w) (arrivals w) n (senv w).
Definition set_arrivals (w : shim_world) (l : list Z) : shim_world :=
  mkShimWorld (chans w) l (wg w) (senv w).
Definition set_senv (w : shim_world) (o : shim_oracle) : shim_world :=
  mkShimWorld (chans w) (arrivals w) (wg w) o.

(** *** os/signal *)

Definition mem (n : Z) (l : list Z) : bool := bool_decide (n ∈ l).

(** [signal.Notify(c, sigs...)]: adds [sigs] to the signals [c] gets, all of
    them when none is listed. *)
Definition notify (sigs : list Z) (c : chan_rec) : chan_rec :=
  mkChan (capacity c) (buf c)
    (fun n => match sigs with [] => true | _ => mask c n || mem n sigs end).

(** [signal.Ignore(sigs...)]: undoes every earlier Notify for [sigs]. *)
Definition ignore (sigs : list Z) (c : chan_rec) : chan_rec :=
  mkChan (capacity c) (buf c)
    (fun n => match sigs with [] => false | _ => mask c n && negb (mem n sigs) end).

(** [signal.Stop(c)]. *)
Definition stop (c : chan_rec) : chan_rec :=
  mkChan (capacity c) (buf c) (fun _ => false).

(** The runtime hands an arriving signal to every channel notified of it,
    without blocking: a full channel misses the signal. *)
Definition offer (n : Z) (c : chan_rec) : chan_rec :=
  if mask c n && (length (buf c) <? capacity c)%nat
  then mkChan (capacity c) (buf c ++ [syscall_Signal n]) (mask c)
  else c.

Definition deliver (n : Z) (cs : list chan_rec) : list chan_rec := offer n <$> cs.

Definition pop (c : chan_rec) : chan_rec :=
  mkChan (capacity c) (tail (buf c)) (mask c).

(** A receive takes the oldest buffered signal. *)
Definition recv_now (c : nat) (cs : list chan_rec) : option (os_Signal * list chan_rec) :=
  match cs !! c with
  | Some ch =>
      match buf ch with
      | s :: _ => Some (s, alter pop c cs)
      | [] => None
      end
  | None => None
  end.

(** A blocked receive sleeps through the arrivals until the channel holds a
    signal; when none ever does it never returns. *)
Fixpoint recv_wait (c : nat) (incoming : list Z) (cs : list chan_rec)
  : option (os_Signal * list chan_rec * list Z) :=
  match recv_now c cs with
  | Some (s, cs') => Some (s, cs', incoming)
  | None =>
      match incoming with
      | [] => None
      | n :: rest => recv_wait c rest (deliver n cs)
      end
  end.

(** *** One thread's view

    The world as one thread sees it: the other goroutines belong to the
    environment, so [wg.Wait()] returns when the environment lets the output
    loops finish. *)
Definition shandle (X : Type) (op : SOp X) (w : shim_world) : option (X * shim_world) :=
  match op in SOp X return option (X * shim_world) with
  | NewKataAgent _ => Some (connect (senv w), w)
  | MakeChan n => Some (length (chans w), set_chans w (chans w ++ [mkChan n [] (fun _ => false)]))
  | SignalNotify c sigs => Some (tt, set_chans w (alter (notify sigs) c (chans w)))
  | SignalIgnore sigs => Some (tt, set_chans w (ignore sigs <$> chans w))
  | SignalStop c => Some (tt, set_chans w (alter stop c (chans w)))
  | Recv c =>
      match recv_wait c (arrivals w) (chans w) with
      | Some (s, cs, rest) => Some (s, set_arrivals (set_chans w cs) rest)
      | None => None
      end
  | WgAdd d => Some (tt, set_wg w (wg w + d))
  | WgDone => Some (tt, set_wg w (wg w - 1))
  | WgWait => if outputs_end (senv w) then Some (tt, set_wg w 0) else None
  | Go _ => Some (tt, w)
  | StdioPipe _ _ => Some (tt, w)
  | IoCopy _ src =>
      match copy_end (senv w) src with
      | Some e => Some (e, w)
      | None => None
      end
  | CloseStdin _ _ => Some (close_stdin (senv w), w)
  | SignalProcess _ _ n => Some (signal_err (senv w) n, w)
  | WaitProcess _ _ => Some (exit_code (senv w), w)
  | SetRawTerminal => Some (raw (senv w), w)
  | RestoreTerminal _ => Some (tt, w)
  | MonitorTtySize _ _ => Some (tt, w)
  | Glog_Infof _ _ => Some (tt, w)
  | Glog_Errorf _ _ => Some (tt, w)
  | Stderr_Fprintf _ _ => Some (tt, w)
  end.

Definition srun {R : Type} (p : sprog R) (w : shim_world) : run R := exec shandle p w.

(** ** cli/shim.go: proxyStdio, forwardAllSignals, shimCommand *)

(** The bodies of the three goroutines of proxyStdio. *)
Definition copy_stdin_body (container process : string) : sprog unit :=
  err1 <- call (IoCopy inPipe local_Stdin);;
  err2 <- call (CloseStdin container process);;
  call (Glog_Infof "copy stdin %#v %#v" [err1; err2]).

Definition copy_stdout_body : sprog unit :=
  err <- call (IoCopy local_Stdout outPipe);;
  call (Glog_Infof "copy stdout %#v" [err]);;;
  call WgDone.

Definition copy_stderr_body : sprog unit :=
  err <- call (IoCopy local_Stderr errPipe);;
  call (Glog_Infof "copy stderr %#v" [err]);;;
  call WgDone.

Definition proxyStdio (container process : string) : sprog unit :=
  call (WgAdd 2);;;
  call (StdioPipe container process);;;
  call (Go (copy_stdin container process));;;
  call (Go copy_stdout);;;
  call (Go copy_stderr).

(** [s == syscall.SIGX] on the interface value. *)
Definition sig_is (s : os_Signal) (n : Z) : bool := bool_decide (s = syscall_Signal n).

Definition Signal_String (s : os_Signal) : string :=
  match s with
  | syscall_Signal n => "signal " +:+ fmt_d n
  | other_Signal name => name
  end.

(** The body of [for s := range sigc]: what is done with one signal. *)
Definition forward_one (container process : string) (s : os_Signal) : sprog unit :=
  if sig_is s SIGCHLD || sig_is s SIGPIPE || sig_is s SIGWINCH then Ret tt
  else
    match s with
    | other_Signal _ =>
        let msg := "can't forward unknown signal " +:+ Signal_String s in
        call (Stderr_Fprintf msg []);;;
        call (Glog_Errorf msg [])
    | syscall_Signal sysSig =>
        e <- call (SignalProcess container process sysSig);;
        match e with
        | Some err =>
            let msg := "forward signal " +:+ Signal_String s +:+ " failed" in
            call (Stderr_Fprintf msg [Some err]);;;
            call (Glog_Errorf msg [Some err])
        | None => Ret tt
        end
    end.

(** One round of the loop: wait for a signal, handle it. *)
Definition signal_loop_body (sigc : nat) (container process : string) : sprog unit :=
  s <- call (Recv sigc);;
  forward_one container process s.

Definition forwardAllSignals (container process : string) : sprog nat :=
  sigc <- call (MakeChan 2048);;
  call (SignalNotify sigc []);;;
  call (SignalIgnore [SIGCHLD; SIGPIPE]);;;
  call (Go (signal_loop sigc container process));;;
  Ret sigc.

(** [cli.Context]: string flags, boolean flags and global string flags. *)
Record cli_Context : Type := mkContext {
  ctx_strings : gmap string string;
  ctx_bools : gset string;
  ctx_globals : gmap string string
}.

Definition ctx_String (c : cli_Context) (name : string) : string :=
  default "" (ctx_strings c !! name).
Definition ctx_Bool (c : cli_Context) (name : string) : bool :=
  bool_decide (name ∈ ctx_bools c).
Definition ctx_GlobalString (c : cli_Context) (name : string) : string :=
  default "" (ctx_globals c !! name).

(** A deferred call of the Action. *)
Inductive deferred : Type :=
| d_wg_Wait
| d_RestoreTerminal (saved : Z)
| d_signal_Stop (sigc : nat).

Definition run_deferred_call (d : deferred) : sprog unit :=
  match d with
  | d_wg_Wait => call WgWait
  | d_RestoreTerminal s => call (RestoreTerminal s)
  | d_signal_Stop c => call (SignalStop c)
  end.

(** The deferred calls run at return, last registered first; the list has
    the last registered at its head. *)
Fixpoint run_deferred (ds : list deferred) : sprog unit :=
  match ds with
  | [] => Ret tt
  | d :: ds' => run_deferred_call d;;; run_deferred ds'
  end.

(** The first step of the Action when the process is "init". *)
Definition wait_ready : sprog unit :=
  waitSigUsr1 <- call (MakeChan 1);;
  call (SignalNotify waitSigUsr1 [SIGUSR1]);;;
  call (Recv waitSigUsr1);;;
  call (SignalStop waitSigUsr1).

(** The Action once the process may be served: the proxies that were asked
    for, the wait for the remote exit, and the result.  [ds] collects the
    deferred calls. *)
Definition serve (context : cli_Context) (container process : string)
  : sprog (option ExitError) :=
  ds <- (if ctx_Bool context "proxy-stdio"
         then proxyStdio container process;;; Ret [d_wg_Wait]
         else Ret []);;
  rw <- (if ctx_Bool context "proxy-winsize" then
           call (Glog_Infof "using shim to proxy winsize" []);;;
           s <- call SetRawTerminal;;
           match s with
           | inr err => Ret (inr err)
           | inl saved =>
               call (MonitorTtySize container process);;;
               Ret (inl (d_RestoreTerminal saved :: ds))
           end
         else Ret (inl ds));;
  match rw with
  | inr err =>
      run_deferred ds;;;
      Ret (Some (NewExitError "failed to set raw terminal" (-1)))
  | inl ds =>
      ds <- (if ctx_Bool context "proxy-signal" then
               call (Glog_Infof "using shim to proxy signal" []);;;
               sigc <- forwardAllSignals container process;;
               Ret (d_signal_Stop sigc :: ds)
             else Ret ds);;
      (* wait until exit *)
      exitcode <- call (WaitProcess container process);;
      if ctx_Bool context "proxy-exit-code" then
        call (Glog_Infof "using shim to proxy exit code: %d" []);;;
        if bool_decide (exitcode <> 0) then
          run_deferred ds;;;
          Ret (Some (NewExitError "" exitcode))
        else run_deferred ds;;; Ret None
      else run_deferred ds;;; Ret None
  end.

(** [shimCommand.Action]; the result is Go's returned error, [None] for nil. *)
Definition shimCommand_Action (context : cli_Context) : sprog (option ExitError) :=
  let container := ctx_String context "container" in
  let process := ctx_String context "process" in
  r <- call (NewKataAgent
               (filepath.Join [ctx_GlobalString context "root"; container;
                               "sandbox"; "kata-agent.sock"]));;
  match r with
  | Some err => Ret (Some (NewExitError "failed to connect to hyperstart proxy" (-1)))
  | None =>
      (if bool_decide (process = "init") then wait_ready else Ret tt);;;
      serve context container process
  end.

(** The status the command leaves with: [cli] exits with the code of a
    returned ExitError, and with 0 when the Action returns nil. *)
Definition exit_status (r : option ExitError) : Z :=
  match r with
  | None => 0
  | Some e => exitCode e
  end.

(** Sample context and world. *)
Definition sample_context (process : string) (bools : list string) : cli_Context :=
  mkContext {["container" := "c1"; "process" := process]} (list_to_set bools)
            {["root" := "/run/runv"]}.

Definition agent_says (code : Z) : shim_oracle :=
  mkShimOracle None (inl 7) code (fun _ => Some None) None (fun _ => None) true.

Definition shim_world_of (incoming : list Z) (o : shim_oracle) : shim_world :=
  mkShimWorld [] incoming 0 o.


(** ** Goroutines: the shared view

    All threads of the process run over one world.  A thread is what is
    left of its code and, for a [for ... range] over a channel that nobody
    closes, the body to start again.  The first thread is the main one: the
    process ends when it returns, and nothing runs after that. *)

Record thread : Type := mkThread {
  cur : sprog unit;
  again : option (sprog unit)
}.

Definition goroutine_code (g : goroutine) : thread :=
  match g with
  | copy_stdin container process => mkThread (copy_stdin_body container process) None
  | copy_stdout => mkThread copy_stdout_body None
  | copy_stderr => mkThread copy_stderr_body None
  | signal_loop sigc container process =>
      mkThread (signal_loop_body sigc container process)
               (Some (signal_loop_body sigc container process))
  end.

(** The shared world answers like [shandle], except where threads meet:
    [wg.Wait()] returns when the counter is zero, and a receive returns when
    its channel holds a signal. *)
Definition phandle (X : Type) (op : SOp X) (w : shim_world) : option (X * shim_world) :=
  match op in SOp X return option (X * shim_world) with
  | WgWait => if bool_decide (wg w = 0) then Some (tt, w) else None
  | Recv c =>
      match recv_now c (chans w) with
      | Some (s, cs) => Some (s, set_chans w cs)
      | None => None
      end
  | op' => shandle op' w
  end.

Definition spawned (X : Type) (op : SOp X) : list thread :=
  match op with
  | Go g => [goroutine_code g]
  | _ => []
  end.

Record pool : Type := mkPool {
  threads : list thread;
  pw : shim_world;
  ptrace : list (nat * event SOp);   (* who called what, oldest first *)
  seen : list Z                      (* the host signals that arrived, oldest first *)
}.

(** The code a thread runs next. *)
Definition next_code (t : thread) : sprog unit :=
  match cur t, again t with
  | Ret _, Some body => body
  | p, _ => p
  end.

Definition finished (t : thread) : bool :=
  match next_code t with
  | Ret _ => true
  | Call _ _ => false
  end.

Definition alive (st : pool) : bool :=
  match threads st !! 0%nat with
  | Some t => negb (finished t)
  | None => false
  end.

(** What can happen next: a host signal arrives, or thread [tid] makes its
    next call and the outside answers as [env] says. *)
Inductive action : Type :=
| Arrive (n : Z)
| Step (tid : nat) (env : shim_oracle).

Definition run_thread (tid : nat) (t : thread) (st : pool) : option pool :=
  match next_code t with
  | Ret _ => None
  | Call op k =>
      match phandle op (pw st) with
      | None => None
      | Some (x, w') =>
          Some (mkPool (<[tid := mkThread (k x) (again t)]> (threads st) ++ spawned op)
                       w' (ptrace st ++ [(tid, Ev op x)]) (seen st))
      end
  end.

Definition pstep (a : action) (st : pool) : option pool :=
  if alive st then
    match a with
    | Arrive n =>
        Some (mkPool (threads st) (set_chans (pw st) (deliver n (chans (pw st))))
                     (ptrace st) (seen st ++ [n]))
    | Step tid env =>
        match threads st !! tid with
        | Some t =>
            run_thread tid t (mkPool (threads st) (set_senv (pw st) env) (ptrace st) (seen st))
        | None => None
        end
    end
  else None.

Fixpoint prun (sched : list action) (st : pool) : option pool :=
  match sched with
  | [] => Some st
  | a :: rest =>
      match pstep a st with
      | Some st' => prun rest st'
      | None => None
      end
  end.

Definition start (main : sprog unit) : pool :=
  mkPool [mkThread main None]
         (mkShimWorld [] [] 0 (mkShimOracle None (inl 0) 0 (fun _ => None) None (fun _ => None) false))
         [] [].


(** The Action's use of forwardAllSignals: the call, the wait for the remote
    exit, and at return the deferred [signal.Stop(sigc)]. *)
Definition signal_owner (container process : string) : sprog unit :=
  sigc <- forwardAllSignals container process;;
  call (WaitProcess container process);;;
  call (SignalStop sigc).

(** *** Reading a trace *)



(** [io.Copy(dst, src)], with both ends named. *)
Definition is_copy (dst src : endpoint) (e : event SOp) : bool :=
  match e with
  | Ev op _ =>
      match op with
      | IoCopy d s => bool_decide (d = dst) && bool_decide (s = src)
      | _ => false
      end
  end.



(** The signals workers took from a channel, and the signal numbers sent to
    the agent, oldest first. *)
Definition received_of (e : event SOp) : list os_Signal :=
  match e with
  | Ev op x =>
      match op in SOp X return X -> list os_Signal with
      | Recv _ => fun s => [s]
      | _ => fun _ => []
      end x
  end.

Definition forwarded_of (e : event SOp) : list Z :=
  match e with
  | Ev op _ => match op with SignalProcess _ _ n => [n] | _ => [] end
  end.

(** The calls one thread has made, oldest first. *)
Definition calls_of (tid : nat) (tr : list (nat * event SOp)) : list (event SOp) :=
  (filter (fun e => e.1 = tid) tr).*2.

Definition count_events (f : event SOp -> bool) (tr : list (nat * event SOp)) : nat :=
  length (filter (fun e => f e.2 = true) tr).

Definition happened (f : event SOp -> bool) (tr : list (nat * event SOp)) : bool :=
  bool_decide (count_events f tr <> 0%nat).

Definition received (tr : list (nat * event SOp)) : list os_Signal :=
  tr ≫= (fun e => received_of e.2).

Definition forwarded (tr : list (nat * event SOp)) : list Z :=
  tr ≫= (fun e => forwarded_of e.2).

(** The signal number sent to the agent for a received signal, if any. *)
Definition forwardable (s : os_Signal) : option Z :=
  match s with
  | syscall_Signal n =>
      if mem n [SIGCHLD; SIGPIPE; SIGWINCH] then None else Some n
  | other_Signal _ => None
  end.

Definition always_ok : shim_oracle :=
  mkShimOracle None (inl 0) 0 (fun _ => Some None) None (fun _ => None) true.


(** [strconv.Atoi], to read a pid file back. *)
Definition atoi (s : string) : option Z := Z.of_int <$> NilZero.int_of_string s.

(** The buffer of the first channel, the forwarder's when it runs alone. *)
Definition buf0 (cs : list chan_rec) : list os_Signal :=
  match cs !! 0%nat with
  | Some ch => buf ch
  | None => []
  end.

Definition sigc_buf (st : pool) : list os_Signal := buf0 (chans (pw st)).

(** * Properties *)

(** ** Runs of composed programs *)

Section exec_facts.
Context {E : Type -> Type} {W : Type}.
Variable handle : forall X : Type, E X -> W -> option (X * W).

Lemma exec_bind {A B : Type} (p : prog E A) (f : A -> prog E B) (w : W) :
  exec handle (bind p f) w =
    match result (exec handle p w) with
    | None => mkRun (log (exec handle p w)) None (final (exec handle p w))
    | Some a =>
        let r := exec handle (f a) (final (exec handle p w)) in
        mkRun (log (exec handle p w) ++ log r) (result r) (final r)
    end.
Proof.
  revert w. induction p as [a | X op k IH]; intros w; simpl.
  - by destruct (exec handle (f a) w).
  - destruct (handle op w) as [[x w'] |]; simpl; [| done].
    rewrite IH. by destruct (result (exec handle (k x) w')).
Qed.
End exec_facts.

(** ** Decimal output *)



Lemma to_int_not_nil (n : Z) : Z.to_int n <> Decimal.Pos Nil /\ Z.to_int n <> Decimal.Neg Nil.
Proof.
  split; intros E;
    (assert (n = 0) as -> by (rewrite <- (DecimalZ.of_to n), E; reflexivity));
    discriminate E.
Qed.

Lemma atoi_fmt_d (n : Z) : atoi (fmt_d n) = Some n.
Proof.
  unfold atoi, fmt_d. destruct (to_int_not_nil n) as [H1 H2].
  rewrite NilZero.isi by assumption. simpl. by rewrite DecimalZ.of_to.
Qed.

(** ** createPidFile *)

Definition pidfile_flags : list open_flag := [O_RDWR; O_CREATE; O_EXCL; O_SYNC].

(** The run of createPidFile, call by call. *)
Lemma createPidFile_run (path : string) (pid : Z) (w : world) :
  lrun (createPidFile path pid) w =
    let tmp := tmpName path in
    let o := do_open tmp pidfile_flags w in
    match o.1 with
    | inr e => mkRun [(Ev (OpenFile tmp pidfile_flags 438) (inr e), o.2)] (Some (Some e)) o.2
    | inl f =>
        let wr := do_write f (fmt_d pid) o.2 in
        let w3 := close_fd wr.2 f in
        match wr.1 with
        | Some e =>
            mkRun [(Ev (OpenFile tmp pidfile_flags 438) (inl f), o.2);
                 (Ev (Fprintf f (fmt_d pid)) (Some e), wr.2);
                 (Ev (FileClose f) (), w3)] (Some (Some e)) w3
        | None =>
            let rn := do_rename tmp path w3 in
            mkRun [(Ev (OpenFile tmp pidfile_flags 438) (inl f), o.2);
                 (Ev (Fprintf f (fmt_d pid)) None, wr.2);
                 (Ev (FileClose f) (), w3);
                 (Ev (Rename tmp path) rn.1, rn.2)] (Some rn.1) rn.2
        end
    end.
Proof.
  unfold lrun, createPidFile, pidfile_flags. simpl.
  destruct (do_open _ _ w) as [[f | e] w1]; simpl; [| done].
  destruct (do_write f (fmt_d pid) w1) as [[e |] w2]; simpl; [done |].
  by destruct (do_rename _ path (close_fd w2 f)) as [r w4].
Qed.

Lemma do_open_excl (name : string) (w : world) :
  match do_open name pidfile_flags w with
  | (inl f, w1) =>
      files w !! name = None /\ fname f = name /\
      files w1 = <[name := ""]> (files w) /\ os w1 = os w
  | (inr e, w1) => w1 = w
  end.
Proof.
  unfold do_open. case_bool_decide; [done |].
  destruct (files w !! name) eqn:E; simpl; done.
Qed.

Lemma do_open_taken (name : string) (w : world) :
  is_Some (files w !! name) ->
  exists e, do_open name pidfile_flags w = (inr e, w).
Proof.
  intros [c Hc]. unfold do_open. case_bool_decide; [by eexists |].
  rewrite Hc. simpl. by eexists.
Qed.

Lemma do_open_free (name : string) (w : world) :
  files w !! name = None -> name ∉ denied (os w) ->
  exists f, (do_open name pidfile_flags w).1 = inl f.
Proof.
  intros Hn Hd. unfold do_open. rewrite bool_decide_eq_false_2 by done.
  rewrite Hn. simpl. by eexists.
Qed.

Lemma string_app_nil_l (s : string) : "" +:+ s = s.
Proof. reflexivity. Qed.



(** C6, as the code has it: what createPidFile refuses is a taken temporary
    name, not a taken target.  When the temporary name exists the call fails
    at its first step and changes nothing; when it is free and nothing fails
    the call succeeds and the target holds the new pid afterwards, whether or
    not the target existed before. *)
Theorem createPidFile_exclusive_on_tmp (path : string) (pid : Z) (w : world) :
  let r := lrun (createPidFile path pid) w in
  let tmp := tmpName path in
  (is_Some (files w !! tmp) -> exists e, result r = Some (Some e) /\ final r = w) /\
  (tmp <> path -> files w !! tmp = None -> tmp ∉ denied (os w) ->
   write_fault (os w) = None -> rename_fault (os w) = None ->
   result r = Some None /\ files (final r) = <[path := fmt_d pid]> (files w)).
Proof.
  intros r tmp. subst r. rewrite createPidFile_run. fold tmp. cbv zeta.
  pose proof (do_open_excl tmp w) as Ho. split.
  - intros Ht. destruct (do_open_taken Ht) as [e He]. rewrite He. simpl. by eauto.
  - intros Hne Hfree Hden Hwf Hrf.
    destruct (do_open_free Hfree Hden) as [f Hf1].
    destruct (do_open tmp pidfile_flags w) as [[f' | e] w1]; simpl in *; [| done].
    destruct Ho as (_ & Hf & Hfs & Hos).
    unfold do_write. rewrite Hos, Hf, Hwf. simpl.
    unfold do_rename. simpl. rewrite lookup_alter_eq, Hfs, lookup_insert_eq, Hos. simpl.
    rewrite Hrf. simpl. split; [done |].
    apply map_eq. intros k. destruct (decide (k = path)) as [-> | Hk].
    + by rewrite !lookup_insert_eq.
    + rewrite !lookup_insert_ne by done.
      destruct (decide (k = tmp)) as [-> | Hk'].
      * by rewrite lookup_delete_eq.
      * by rewrite lookup_delete_ne, lookup_alter_ne, lookup_insert_ne.
Qed.

Lemma createPidFile_exclusive_on_tmp_witness :
  (exists e, result (lrun (createPidFile "/run/shim.pid" 42)
                          (world_of {["/run/.shim.pid" := "7"]} calm)) = Some (Some e)) /\
  result (lrun (createPidFile "/run/shim.pid" 42)
               (world_of {["/run/shim.pid" := "7"]} calm)) = Some None.
Proof.
  split.
  - destruct (createPidFile_exclusive_on_tmp "/run/shim.pid" 42
                (world_of {["/run/.shim.pid" := "7"]} calm)) as [H _].
    destruct H as (e & He & _); [by eexists | by exists e].
  - destruct (createPidFile_exclusive_on_tmp "/run/shim.pid" 42
                (world_of {["/run/shim.pid" := "7"]} calm)) as [_ H].
    apply H; try reflexivity.
    + vm_compute. discriminate.
    + vm_compute. apply not_elem_of_nil.
Defined.

(** C6 as stated fails: with the target already there and the temporary name
    free, createPidFile returns nil and replaces the content; done twice in a
    row, both calls succeed. *)
Lemma createPidFile_existing_target :
  let w := world_of {["/run/shim.pid" := "7"]} calm in
  let r := lrun (createPidFile "/run/shim.pid" 42) w in
  let r2 := lrun (createPidFile "/run/shim.pid" 43) (final r) in
  files w !! "/run/shim.pid" = Some "7" /\
  result r = Some None /\
  files (final r) !! "/run/shim.pid" = Some "42" /\
  result r2 = Some None /\
  files (final r2) !! "/run/shim.pid" = Some "43".
Proof. vm_compute. done. Qed.

(** ** createShim *)

Definition spawn_cmd (e : event LOp) : option Cmd :=
  match e with
  | Ev op _ =>
      match op with
      | Start cmd => Some cmd
      | NsSetRun _ cmd => Some cmd
      | _ => None
      end
  end.

(** The process a call has started, if it is a start that succeeded. *)
Definition spawned_proc (e : event LOp) : option Process :=
  match e with
  | Ev op x =>
      match op in LOp X return X -> option Process with
      | Start _ => fun r => match r with inl p => Some p | inr _ => None end
      | NsSetRun _ _ => fun r => match r with inl p => Some p | inr _ => None end
      | _ => fun _ => None
      end x
  end.

Definition is_kill (p : Process) (e : event LOp) : bool :=
  match e with
  | Ev op _ => match op with Kill q => bool_decide (Pid q = Pid p) | _ => false end
  end.

(** The processes a trace starts and does not kill afterwards. *)
Fixpoint unkilled (tr : list (event LOp)) : list Process :=
  match tr with
  | [] => []
  | e :: rest =>
      match spawned_proc e with
      | Some p => if existsb (is_kill p) rest then unkilled rest else p :: unkilled rest
      | None => unkilled rest
      end
  end.

Definition has_console (options : runvOptions) : bool :=
  bool_decide (opt_String options "console" <> "")
  || bool_decide (opt_String options "console-socket" <> "").

(** Descriptor numbers are handed out in increasing order. *)
Definition fds_fresh (w : world) : Prop := forall n, n ∈ open_fds w -> (n < next_fd w)%nat.

#[local] Arguments filepath.Join : simpl never.
#[local] Arguments filepath.Clean : simpl never.
#[local] Arguments strings_Join : simpl never.
#[local] Arguments String.append : simpl never.
#[local] Arguments tmpName : simpl never.
#[local] Arguments fmt_d : simpl never.
#[local] Arguments do_open : simpl never.
#[local] Arguments do_write : simpl never.
#[local] Arguments do_rename : simpl never.

Ltac run_cases :=
  repeat first
    [ progress simpl
    | match goal with
      | |- context [bool_decide ?P] => destruct (bool_decide P) eqn:?
      | |- context [match ?x with _ => _ end] =>
          lazymatch x with
          | context [match _ with _ => _ end] => fail
          | _ => destruct x eqn:?
          end
      end ].

Ltac in_trace H :=
  repeat (apply elem_of_cons in H as [-> | H]); try (by apply elem_of_nil in H).

Lemma lrun_bind {A B : Type} (p : lprog A) (f : A -> lprog B) (w : world) :
  lrun (bind p f) w =
    match result (lrun p w) with
    | None => mkRun (log (lrun p w)) None (final (lrun p w))
    | Some a =>
        let r := lrun (f a) (final (lrun p w)) in
        mkRun (log (lrun p w) ++ log r) (result r) (final r)
    end.
Proof. apply exec_bind. Qed.

(** An event that starts or kills no process. *)
Definition quiet (e : event LOp) : Prop :=
  spawn_cmd e = None /\ spawned_proc e = None /\ forall p, is_kill p e = false.

Lemma do_open_frame (name : string) (flag : list open_flag) (w : world) :
  children (do_open name flag w).2 = children w /\
  os (do_open name flag w).2 = os w /\
  (has_flag O_CREATE flag = false -> files (do_open name flag w).2 = files w).
Proof.
  unfold do_open, open_fd. repeat case_match; simpl; split_and!; done.
Qed.

(** Opening the console starts nothing, leaves files and children alone, and
    returns a file exactly when a console or a console socket is set. *)
Lemma open_console_spec (options : runvOptions) (w : world) :
  let r := lrun (open_console options) w in
  exists c, result r = Some c /\
    Forall quiet (trace r) /\
    children (final r) = children w /\ files (final r) = files w /\ os (final r) = os w /\
    match c with
    | inl tty => is_nil tty = negb (has_console options)
    | inr _ => True
    end.
Proof.
  unfold lrun, open_console, has_console, trace, quiet. simpl.
  destruct (bool_decide (opt_String options "console" <> "")) eqn:E1; simpl.
  - destruct (do_open_frame (opt_String options "console") [O_RDWR] w) as (Hc & Ho & Hf).
    specialize (Hf eq_refl).
    destruct (do_open _ _ w) as [[f | e] w1]; simpl in *;
      eexists; split_and!; try done; repeat constructor.
  - destruct (bool_decide (opt_String options "console-socket" <> "")) eqn:E2;
      run_cases; eexists; split_and!; try done; repeat constructor.
Qed.

(** Choosing the binary touches nothing. *)
Lemma prepare_shim_spec (options : runvOptions) (container process : string)
    (terminal : bool) (w : world) :
  let r := lrun (prepare_shim options container process terminal) w in
  exists pa, result r = Some pa /\ Forall quiet (trace r) /\ final r = w.
Proof.
  unfold lrun, prepare_shim, prepareRunvShim, prepareKataShim, trace, quiet.
  run_cases; eexists; split_and!; try done; repeat constructor.
Qed.

Lemma do_open_inv (name : string) (flag : list open_flag) (w w' : world)
    (r : File + error) :
  do_open name flag w = (r, w') ->
  children w' = children w /\ os w' = os w /\
  match r with
  | inl f => fd f = next_fd w /\ open_fds w' = {[next_fd w]} ∪ open_fds w /\
             next_fd w' = S (next_fd w)
  | inr _ => w' = w
  end.
Proof.
  unfold do_open, open_fd. repeat case_match; intros [= <- <-]; simpl; done.
Qed.

Lemma do_write_inv (f : File) (s : string) (w w' : world) (r : option error) :
  do_write f s w = (r, w') ->
  children w' = children w /\ os w' = os w /\
  open_fds w' = open_fds w /\ next_fd w' = next_fd w.
Proof. unfold do_write. repeat case_match; intros [= <- <-]; simpl; done. Qed.

Lemma do_rename_inv (o n : string) (w w' : world) (r : option error) :
  do_rename o n w = (r, w') ->
  children w' = children w /\ os w' = os w /\
  open_fds w' = open_fds w /\ next_fd w' = next_fd w.
Proof. unfold do_rename. repeat case_match; intros [= <- <-]; simpl; done. Qed.

Lemma do_start_inv (w w' : world) (r : Process + error) :
  do_start w = (r, w') ->
  os w' = os w /\ open_fds w' = open_fds w /\ next_fd w' = next_fd w /\
  match r with
  | inl p => children w' = <[Pid p := true]> (children w)
  | inr _ => w' = w
  end.
Proof. unfold do_start. repeat case_match; intros [= <- <-]; simpl; done. Qed.

(** Collects what each call on the way did to the world. *)
Ltac call_facts :=
  repeat match goal with
    | H : do_open _ _ _ = _ |- _ => apply do_open_inv in H; destruct_and? H
    | H : do_write _ _ _ = _ |- _ => apply do_write_inv in H; destruct_and? H
    | H : do_rename _ _ _ = _ |- _ => apply do_rename_inv in H; destruct_and? H
    | H : do_start _ = _ |- _ => apply do_start_inv in H; destruct_and? H
    end.

Ltac launch_cases :=
  unfold lrun, launch, start_cmd, createPidFile, deferred_close, trace;
  run_cases; simplify_eq/=; call_facts.

(** The attributes launch starts the child with. *)
Lemma launch_attr (options : runvOptions) (tty : option File) (path : string)
    (args : list string) (w : world) :
  let r := lrun (launch options tty path args) w in
  (forall e cmd, e ∈ trace r -> spawn_cmd e = Some cmd ->
     Setctty (Attr cmd) = negb (is_nil tty) /\
     Setsid (Attr cmd) = negb (is_nil tty) || negb (attach options) /\
     Cloneflags (Attr cmd) = (if is_nil (withContainer options) then CLONE_NEWNET else 0)) /\
  (exists e cmd, e ∈ trace r /\ spawn_cmd e = Some cmd).
Proof.
  split.
  - intros e cmd. launch_cases; intros He Hc; in_trace He; by simplify_eq/=.
  - launch_cases; do 2 eexists; (split; [apply list_elem_of_further, list_elem_of_here | done]).
Qed.

(** createShim either fails before it has anything to start, having started
    and killed nothing, or goes on as [launch] from a world with the same
    files and children. *)
Lemma createShim_phases (options : runvOptions) (container process : string)
    (spec : specs_Process) (w : world) :
  let r := lrun (createShim options container process spec) w in
  (exists err, result r = Some (inr err) /\ Forall quiet (trace r) /\
               children (final r) = children w) \/
  (exists tty path args w1 q,
      Forall quiet q /\ children w1 = children w /\ os w1 = os w /\
      files w1 = files w /\ is_nil tty = negb (has_console options) /\
      result (lrun (open_console options) w) = Some (inl tty) /\
      final (lrun (open_console options) w) = w1 /\
      let l := lrun (launch options tty path args) w1 in
      trace r = q ++ trace l /\ result r = result l /\ final r = final l).
Proof.
  cbv zeta. unfold createShim. rewrite lrun_bind.
  destruct (open_console_spec options w) as (c & Hc & Hq1 & Hch1 & Hf1 & Ho1 & Htty).
  rewrite Hc. destruct c as [tty | err]; cbv zeta.
  2:{ left. exists err. unfold trace in *. simpl. rewrite app_nil_r. done. }
  rewrite lrun_bind.
  destruct (prepare_shim_spec options container process (Terminal spec)
              (final (lrun (open_console options) w))) as (pa & Hpa & Hq2 & Hw2).
  rewrite Hpa, Hw2. destruct pa as [[path args] | err]; cbv zeta.
  - right. exists tty, path, args, (final (lrun (open_console options) w)),
      (trace (lrun (open_console options) w)
       ++ trace (lrun (prepare_shim options container process (Terminal spec))
                      (final (lrun (open_console options) w)))).
    split_and!; try done.
    + by apply Forall_app.
    + unfold trace. simpl. by rewrite !fmap_app, app_assoc.
  - left. exists err. unfold trace in *. simpl.
    rewrite !fmap_app, fmap_nil, app_nil_r. split_and!; try done. by apply Forall_app.
Qed.

(** C8: the session policy of the child.  Every start that createShim makes
    sets Setctty exactly when the child has a console of its own (a console
    device or the slave of a pty), and Setsid when it has one or when the
    launch is not attached; so a child without a console is a session leader
    if and only if the launch is detached, and a detached child always is.
    A createShim that returns a process has made such a start. *)
Theorem createShim_session_policy (options : runvOptions) (container process : string)
    (spec : specs_Process) (w : world) :
  let r := lrun (createShim options container process spec) w in
  (forall e cmd, e ∈ trace r -> spawn_cmd e = Some cmd ->
     Setctty (Attr cmd) = has_console options /\
     Setsid (Attr cmd) = has_console options || negb (attach options) /\
     (has_console options = true -> Setctty (Attr cmd) = true /\ Setsid (Attr cmd) = true) /\
     (has_console options = false -> Setsid (Attr cmd) = negb (attach options)) /\
     (attach options = false -> Setsid (Attr cmd) = true)) /\
  (forall proc, result r = Some (inl proc) ->
     exists e cmd, e ∈ trace r /\ spawn_cmd e = Some cmd).
Proof.
  cbv zeta.
  destruct (createShim_phases options container process spec w)
    as [(err & Hr & Hq & _) | (tty & path & args & w1 & q & Hq & _ & _ & _ & Htty & _ & _ & Htr & Hres & _)].
  - split.
    + intros e cmd He Hc. rewrite Forall_forall in Hq. destruct (Hq e He) as [Hn _]. congruence.
    + intros proc Hp. congruence.
  - destruct (launch_attr options tty path args w1) as [Hattr Hex].
    rewrite Htr. split.
    + intros e cmd He Hc. apply elem_of_app in He as [He | He].
      * rewrite Forall_forall in Hq. destruct (Hq e He) as [Hn _]. congruence.
      * destruct (Hattr e cmd He Hc) as (H1 & H2 & _).
        rewrite Htty, negb_involutive in H1, H2. rewrite H1, H2.
        split_and!; try done.
        -- intros H. by rewrite H.
        -- intros H. by rewrite H.
        -- intros H. rewrite H. apply orb_true_r.
    + intros proc _. destruct Hex as (e & cmd & He & Hc). exists e, cmd.
      split; [| done]. apply elem_of_app. by right.
Qed.

Lemma createShim_session_policy_witness :
  let options := mkOptions {["console-socket" := "/run/console.sock"]} ∅ ∅ true None in
  exists e cmd,
    e ∈ trace (lrun (createShim options "c1" "init" (mkSpec true)) (world_of ∅ calm)) /\
    spawn_cmd e = Some cmd /\ Setctty (Attr cmd) = true /\ Setsid (Attr cmd) = true.
Proof.
  intros options.
  destruct (createShim_session_policy options "c1" "init" (mkSpec true) (world_of ∅ calm))
    as [Hattr Hex].
  destruct (Hex (mkProcess 4242)) as (e & cmd & He & Hc); [vm_compute; reflexivity |].
  exists e, cmd. split_and!; try done;
    destruct (Hattr e cmd He Hc) as (_ & _ & H & _); apply H; vm_compute; reflexivity.
Defined.

Ltac same_children :=
  simpl in *;
  repeat match goal with
    | H : children ?w' = _ |- _ => rewrite H in *; clear H
    end.

(** The trace is its first [n] calls, the kill, and the rest. *)
Ltac killed_after n :=
  match goal with
  | |- exists pre post, ?tr = _ /\ _ /\ _ =>
      exists (take n tr), (drop (S n) tr);
      split_and!;
      [ reflexivity
      | apply list_elem_of_further, list_elem_of_here
      | by rewrite lookup_insert_eq ]
  end.

Ltac pid_file_set :=
  match goal with
  | H : bool_decide (opt_String _ "pid-file" <> "") = true |- _ =>
      by apply bool_decide_eq_true_1 in H
  end.

(** A launch that fails leaves no child behind. *)
Lemma launch_no_orphan (options : runvOptions) (tty : option File) (path : string)
    (args : list string) (w : world) :
  let r := lrun (launch options tty path args) w in
  forall err, result r = Some (inr err) ->
    unkilled (trace r) = [] /\
    (forall pid, children (final r) !! pid = Some true -> children w !! pid = Some true) /\
    (forall e proc, e ∈ trace r -> spawned_proc e = Some proc ->
       opt_String options "pid-file" <> "" /\
       exists pre post, trace r = pre ++ Ev (Kill proc) () :: post /\ e ∈ pre /\
                        children (final r) !! Pid proc = Some false).
Proof.
  cbv zeta. intros err. launch_cases; intros Hres; simplify_eq/=.
  all: try match goal with
         | H : bool_decide (?x = ?x) = false |- _ =>
             by rewrite bool_decide_eq_true_2 in H
         end.
  all: split_and!;
    [ done
    | intros pid; same_children; subst; rewrite ?lookup_insert;
      repeat case_decide; done
    | intros e proc He Hs; in_trace He; simplify_eq/=;
      same_children; subst;
      (split; [pid_file_set |]);
      first [ killed_after 3%nat | killed_after 5%nat | killed_after 6%nat ] ].
Qed.

Lemma unkilled_quiet_app (q t : list (event LOp)) :
  Forall quiet q -> unkilled (q ++ t) = unkilled t.
Proof.
  induction 1 as [| e q (_ & He & _) _ IH]; simpl; [done |]. by rewrite He.
Qed.

(** The outcome of createPidFile on a world: the error of the exclusive
    create, of the write or of the rename, or none. *)
Lemma createPidFile_result (path : string) (pid : Z) (w : world) :
  result (lrun (createPidFile path pid) w) =
    Some (if bool_decide (tmpName path ∈ denied (os w)) then Some EACCES
          else match files w !! tmpName path with
               | Some _ => Some EEXIST
               | None =>
                   match write_fault (os w) with
                   | Some (_, e) => Some e
                   | None => rename_fault (os w)
                   end
               end).
Proof.
  rewrite createPidFile_run. cbv zeta. unfold do_open.
  case_bool_decide; [done |].
  destruct (files w !! tmpName path) eqn:E; simpl; [done |].
  unfold do_write. simpl.
  destruct (write_fault (os w)) as [[n e] |]; simpl; [done |].
  unfold do_rename. simpl. rewrite lookup_alter_eq, lookup_insert_eq. simpl.
  by destruct (rename_fault (os w)).
Qed.

(** It depends on the file table and on the faults of the OS only. *)
Lemma createPidFile_frame (path : string) (pid : Z) (w1 w2 : world) :
  files w1 = files w2 -> os w1 = os w2 ->
  result (lrun (createPidFile path pid) w1) = result (lrun (createPidFile path pid) w2).
Proof. intros Hf Ho. by rewrite !createPidFile_result, Hf, Ho. Qed.

(** What makes createPidFile fail: the temporary name is taken or may not be
    created, a write fails, or the rename fails. *)
Lemma createPidFile_fails (path : string) (pid : Z) (w : world) :
  is_Some (files w !! tmpName path) \/ tmpName path ∈ denied (os w) \/
  is_Some (write_fault (os w)) \/ is_Some (rename_fault (os w)) ->
  exists err, result (lrun (createPidFile path pid) w) = Some (Some err).
Proof.
  intros H. rewrite createPidFile_result.
  case_bool_decide; [by eauto |].
  destruct (files w !! tmpName path) eqn:E; [by eauto |].
  destruct (write_fault (os w)) as [[n e] |]; [by eauto |].
  destruct (rename_fault (os w)) as [e |]; [by eauto |].
  destruct H as [[c Hc] | [Hd | [[x Hx] | [x Hx]]]]; done.
Qed.


Lemma lrun_call {X : Type} (op : LOp X) (w : world) :
  lrun (call op) w =
    match handle op w with
    | Some (x, w') => mkRun [(Ev op x, w')] (Some x) w'
    | None => mkRun [] None w
    end.
Proof. unfold lrun. simpl. by destruct (handle op w) as [[x w'] |]. Qed.

(** createPidFile starts and kills nothing and leaves the children alone. *)
Lemma createPidFile_quiet (path : string) (pid : Z) (w : world) :
  Forall quiet (trace (lrun (createPidFile path pid) w)) /\
  children (final (lrun (createPidFile path pid) w)) = children w.
Proof.
  unfold lrun, createPidFile, trace, quiet.
  run_cases; call_facts; same_children; (split; [repeat constructor | done]).
Qed.

(** A launch whose child started and whose pid file cannot be written: the
    child is killed and the error of createPidFile is the result. *)
Lemma launch_pidfile_failure (options : runvOptions) (tty : option File) (path : string)
    (args : list string) (w : world) (e : event LOp) (proc : Process) (err : error) :
  let r := lrun (launch options tty path args) w in
  let pf := opt_String options "pid-file" in
  e ∈ trace r -> spawned_proc e = Some proc -> pf <> "" ->
  result (lrun (createPidFile pf (Pid proc)) w) = Some (Some err) ->
  result r = Some (inr err) /\
  (exists pre post, trace r = pre ++ Ev (Kill proc) () :: post /\ e ∈ pre /\
                    Forall quiet post) /\
  children (final r) !! Pid proc = Some false.
Proof.
  cbv zeta. intros He Hs Hpf Hfail.
  assert (forall (pid : Z) (w0 : world), files w0 = files w -> os w0 = os w ->
            result (lrun (createPidFile (opt_String options "pid-file") pid) w0)
            = Some (Some err)) as Hw0.
  { intros pid w0 Hf Ho. rewrite createPidFile_result in *. by rewrite Hf, Ho. }
  clear Hfail. revert He.
  unfold launch. rewrite lrun_bind, lrun_call. cbn [handle result final log].
  rewrite lrun_bind. unfold start_cmd.
  set (cmd := match tty with Some _ => _ | None => _ end).
  assert (forall (op : LOp (Process + error)) (st : (Process + error) * world),
            (exists c, op = Start c \/ exists n, op = NsSetRun n c) ->
            (st = do_start w \/ exists e0, st = (inr e0, w)) ->
            let r0 := mkRun [(Ev op st.1, st.2)] (Some st.1) st.2 in
            let r1 := lrun match st.1 with
                        | inl proc0 =>
                            if bool_decide (opt_String options "pid-file" <> "") then
                              e <- createPidFile (opt_String options "pid-file") (Pid proc0);;
                              match e with
                              | Some err0 =>
                                  call (Kill proc0);;; deferred_close tty;;; Ret (inr err0)
                              | None => deferred_close tty;;; Ret (inl proc0)
                              end
                            else deferred_close tty;;; Ret (inl proc0)
                        | inr err0 => deferred_close tty;;; Ret (inr err0)
                        end st.2 in
            let r := mkRun ([(Ev (Infof ("starting shim with args " +:+ strings_Join args " ")) (), w)]
                            ++ log r0 ++ log r1) (result r1) (final r1) in
            e ∈ trace r ->
            result r = Some (inr err) /\
            (exists pre post, trace r = pre ++ Ev (Kill proc) () :: post /\ e ∈ pre /\
                              Forall quiet post) /\
            children (final r) !! Pid proc = Some false) as Hgen.
  { intros op [st w0] Hop Hst. cbv zeta. cbn [fst snd log result final].
    destruct st as [p | e0].
    2:{ unfold trace, deferred_close. destruct tty; simpl; intros He; in_trace He;
          destruct Hop as (c & [-> | [n ->]]); simpl in Hs; done. }
    destruct Hst as [Hst | [e0 Hst]]; [| done].
    symmetry in Hst. pose proof (do_start_inv Hst) as (Hos & _ & _ & Hch).
    assert (files w0 = files w) as Hfs.
    { unfold do_start in Hst. destruct (spawn (os w)); by simplify_eq/=. }
    rewrite bool_decide_eq_true_2 by done. rewrite lrun_bind.
    pose proof (Hw0 (Pid p) w0 Hfs Hos) as Hcp.
    destruct (createPidFile_quiet (opt_String options "pid-file") (Pid p) w0) as [Hq Hcc].
    set (cp := lrun (createPidFile (opt_String options "pid-file") (Pid p)) w0) in *.
    clearbody cp. rewrite Hcp. cbv zeta.
    assert (exists post wf,
              lrun (call (Kill p);;; deferred_close tty;;; Ret (inr err)) (final cp)
              = mkRun ((Ev (Kill p) (), set_child (final cp) (Pid p) false) :: post)
                      (Some (inr err)) wf /\
              Forall quiet post.*1 /\
              children wf = <[Pid p := false]> (children (final cp)))
      as (post & wf & -> & Hpost & Hwf).
    { unfold deferred_close, quiet. destruct tty; simpl; eexists _, _;
        (split_and!; [reflexivity | repeat constructor | reflexivity]). }
    unfold trace. cbn [log result final]. rewrite !fmap_app, !fmap_cons.
    cbn [fst fmap list_fmap]. intros He.
    assert (p = proc) as ->.
    { rewrite !elem_of_app, !elem_of_cons, elem_of_nil in He.
      rewrite Forall_forall in Hq, Hpost.
      destruct He as [[-> | []] | [[-> | []] | [He | [-> | He]]]]; try done.
      - destruct Hop as (c & [-> | [n ->]]); simpl in Hs; congruence.
      - destruct (Hq e He) as (_ & Hn & _). congruence.
      - destruct (Hpost e He) as (_ & Hn & _). congruence. }
    split_and!; [done | | by rewrite Hwf, lookup_insert_eq].
    exists ([Ev (Infof ("starting shim with args " +:+ strings_Join args " ")) ();
             Ev op (inl proc)] ++ (log cp).*1), post.*1.
    split_and!; [by rewrite <- !app_assoc | | done].
    rewrite !elem_of_app, !elem_of_cons, elem_of_nil in He.
    rewrite Forall_forall in Hpost.
    destruct He as [[-> | []] | [[-> | []] | [He | [-> | He]]]]; try done.
    - set_solver.
    - set_solver.
    - destruct (Hpost e He) as (_ & Hn & _). congruence. }
  destruct (withContainer options) as [c |]; rewrite lrun_call; cbn [handle].
  - destruct (ns_fault (os w)) as [e0 |].
    + apply (Hgen (NsSetRun (Pid c) cmd) (inr e0, w)); by eauto.
    + destruct (do_start w) as [st w0] eqn:Hst.
      apply (Hgen (NsSetRun (Pid c) cmd) (st, w0)); by eauto.
  - destruct (do_start w) as [st w0] eqn:Hst.
    apply (Hgen (Start (set_Cloneflags cmd CLONE_NEWNET)) (st, w0)); by eauto.
Qed.

(** C7: a createShim that cannot persist the pid kills the child it started
    and returns the error.  Once the child has been started, with a pid file
    configured on which createPidFile fails with [err] (the temporary name is
    taken or may not be created, a write fails, or the rename fails),
    createShim returns [err], having called Kill on that child after the
    start and before returning, with nothing but the deferred close after
    the kill; the child is not running at the end.  Conversely, every
    createShim that returns an error leaves no child running: every process
    the failed run started was killed later in the same run, that happens
    only with a pid file configured, and no child runs at the end that did
    not run before. *)
Theorem createShim_kills_child_on_error (options : runvOptions)
    (container process : string) (spec : specs_Process) (w : world) :
  let r := lrun (createShim options container process spec) w in
  let pf := opt_String options "pid-file" in
  (forall e proc err,
     e ∈ trace r -> spawned_proc e = Some proc -> pf <> "" ->
     result (lrun (createPidFile pf (Pid proc)) w) = Some (Some err) ->
     result r = Some (inr err) /\
     (exists pre post, trace r = pre ++ Ev (Kill proc) () :: post /\ e ∈ pre /\
                       Forall quiet post) /\
     children (final r) !! Pid proc = Some false) /\
  (forall pid,
     is_Some (files w !! tmpName pf) \/ tmpName pf ∈ denied (os w) \/
     is_Some (write_fault (os w)) \/ is_Some (rename_fault (os w)) ->
     exists err, result (lrun (createPidFile pf pid) w) = Some (Some err)) /\
  (forall err, result r = Some (inr err) ->
     unkilled (trace r) = [] /\
     (forall pid, children (final r) !! pid = Some true -> children w !! pid = Some true) /\
     (forall e proc, e ∈ trace r -> spawned_proc e = Some proc ->
        pf <> "" /\
        exists pre post, trace r = pre ++ Ev (Kill proc) () :: post /\ e ∈ pre /\
                         children (final r) !! Pid proc = Some false)).
Proof.
  cbv zeta.
  destruct (createShim_phases options container process spec w)
    as [(err' & Hr & Hq & Hch) | (tty & path & args & w1 & q & Hq & Hch & Hos & Hfs & _ & _ & _ & Htr & Hrl & Hfl)].
  - split_and!.
    + intros e proc err He Hs. rewrite Forall_forall in Hq.
      destruct (Hq e He) as (_ & Hn & _). congruence.
    + intros pid. apply createPidFile_fails.
    + intros err Hres. split_and!.
      * rewrite <- (app_nil_r (trace _)). by rewrite unkilled_quiet_app.
      * intros pid. by rewrite Hch.
      * intros e proc He Hs. rewrite Forall_forall in Hq.
        destruct (Hq e He) as (_ & Hn & _). congruence.
  - split_and!.
    + intros e proc err He Hs Hpf Hfail. rewrite Htr in He.
      apply elem_of_app in He as [He | He].
      { rewrite Forall_forall in Hq. destruct (Hq e He) as (_ & Hn & _). congruence. }
      assert (result (lrun (createPidFile (opt_String options "pid-file") (Pid proc)) w1)
              = Some (Some err)) as Hfail1.
      { by rewrite (createPidFile_frame _ _ Hfs Hos). }
      destruct (launch_pidfile_failure He Hs Hpf Hfail1)
        as (Hres & (pre & post & Ht & Hin & Hpost) & Hdead).
      rewrite Hrl, Hfl, Htr. split_and!; [done | | done].
      exists (q ++ pre), post. split_and!; [by rewrite Ht, app_assoc | | done].
      apply elem_of_app. by right.
    + intros pid. apply createPidFile_fails.
    + intros err Hres. rewrite Hrl in Hres.
      destruct (launch_no_orphan Hres) as (Hu & Hrun & Hk).
      rewrite Htr, Hfl. split_and!.
      * by rewrite unkilled_quiet_app.
      * intros pid Hp. rewrite <- Hch. by apply Hrun.
      * intros e proc He Hs. apply elem_of_app in He as [He | He].
        { rewrite Forall_forall in Hq. destruct (Hq e He) as (_ & Hn & _). congruence. }
        destruct (Hk e proc He Hs) as (Hpf & pre & post & Ht & Hin & Hdead).
        split; [done |]. exists (q ++ pre), post. split_and!; try done.
        -- by rewrite Ht, app_assoc.
        -- apply elem_of_app. by right.
Qed.

Definition disk_full : oracle :=
  mkOracle [] (Some (2%nat, ENOSPC)) None None None (inl "/usr/bin/runv") "runv" None (inl 4242).

Lemma createShim_kills_child_on_error_witness :
  let options := mkOptions {["pid-file" := "/run/shim.pid"]} ∅ ∅ false None in
  let r1 := lrun (createShim options "c1" "init" (mkSpec false))
                 (world_of {["/run/.shim.pid" := "7"]} calm) in
  let r2 := lrun (createShim options "c1" "init" (mkSpec false)) (world_of ∅ disk_full) in
  (result r1 = Some (inr EEXIST) /\ children (final r1) !! 4242 = Some false) /\
  (result r2 = Some (inr ENOSPC) /\ children (final r2) !! 4242 = Some false).
Proof.
  intros options r1 r2.
  pose (e := Ev (Start (mkCmd "/usr/bin/runv"
                      ["runv"; "--root"; ""; "shim"; "--container"; "c1"; "--process"; "init";
                       "--proxy-stdio"; "--proxy-exit-code"; "--proxy-signal"]
                      "/" (mkAttr false true CLONE_NEWNET) os_Stdin os_Stdout os_Stderr))
                (inl (mkProcess 4242)) : event LOp).
  split.
  - destruct (createShim_kills_child_on_error options "c1" "init" (mkSpec false)
                (world_of {["/run/.shim.pid" := "7"]} calm)) as (H & _ & _).
    destruct (H e (mkProcess 4242) EEXIST) as (Hres & _ & Hdead).
    + vm_compute. apply list_elem_of_further, list_elem_of_further, list_elem_of_here.
    + reflexivity.
    + vm_compute. discriminate.
    + vm_compute. reflexivity.
    + split; [exact Hres | exact Hdead].
  - destruct (createShim_kills_child_on_error options "c1" "init" (mkSpec false)
                (world_of ∅ disk_full)) as (H & _ & _).
    destruct (H e (mkProcess 4242) ENOSPC) as (Hres & _ & Hdead).
    + vm_compute. apply list_elem_of_further, list_elem_of_further, list_elem_of_here.
    + reflexivity.
    + vm_compute. discriminate.
    + vm_compute. reflexivity.
    + split; [exact Hres | exact Hdead].
Defined.

Definition no_self_exe : oracle :=
  mkOracle [] None None None None (inr ENOENT) "runv" None (inl 4242).
Definition no_listener : oracle :=
  mkOracle [] None None None (Some ECONNREFUSED) (inl "/usr/bin/runv") "runv" None (inl 4242).

(** C9 fails on the code at two early returns.  With a console device
    opened and no path to the own executable, createShim returns the error
    with the console still open: no close is in the trace and descriptor 3
    stays in the table.  With a console socket nobody listens on, both ends
    of the pty stay open. *)
Theorem createShim_leaks_console_on_early_error :
  let o1 := mkOptions {["console" := "/dev/pts/5"]} ∅ ∅ false None in
  let w1 := world_of {["/dev/pts/5" := ""]} no_self_exe in
  let r1 := lrun (createShim o1 "c1" "init" (mkSpec true)) w1 in
  let o2 := mkOptions {["console-socket" := "/run/console.sock"]} ∅ ∅ false None in
  let w2 := world_of ∅ no_listener in
  let r2 := lrun (createShim o2 "c1" "init" (mkSpec true)) w2 in
  (trace r1 = [Ev (OpenFile "/dev/pts/5" [O_RDWR] 0) (inl (mkFile 3 "/dev/pts/5"));
               Ev Executable (inr ENOENT);
               Ev Arg0 "runv"] /\
   result r1 = Some (inr (Wrapf "cannot find self executable path for runv" ENOENT)) /\
   (3%nat ∉ open_fds w1) /\ (3%nat ∈ open_fds (final r1))) /\
  (trace r2 = [Ev PtyOpen (inl (mkFile 3 "/dev/ptmx", mkFile 4 "/dev/pts/0"));
               Ev (Sendtty "/run/console.sock" (mkFile 3 "/dev/ptmx")) (Some ECONNREFUSED)] /\
   result r2 = Some (inr ECONNREFUSED) /\
   (3%nat ∉ open_fds w2) /\ (4%nat ∉ open_fds w2) /\
   (3%nat ∈ open_fds (final r2)) /\ (4%nat ∈ open_fds (final r2))).
Proof.
  cbv zeta. split_and!; try (vm_compute; reflexivity).
  all: vm_compute; set_solver.
Qed.

Ltac fresh_fd Hw Hin :=
  set_unfold in Hin; destruct_and?; destruct_or?; subst; try lia;
  repeat match goal with H : _ ∈ open_fds _ |- _ => apply Hw in H end; lia.

(** The sibling paths: once createShim has reached the start of the child,
    every return closes what was opened. *)
Lemma open_console_fds (options : runvOptions) (w : world) :
  fds_fresh w ->
  let r := lrun (open_console options) w in
  fds_fresh (final r) /\
  match result r with
  | Some (inl (Some f)) => fd f ∉ open_fds w /\ open_fds (final r) = {[fd f]} ∪ open_fds w
  | Some (inl None) => open_fds (final r) = open_fds w
  | _ => True
  end.
Proof.
  intros Hw. assert (next_fd w ∉ open_fds w) as Hn by (intros H; apply Hw in H; lia).
  assert (S (next_fd w) ∉ open_fds w) as Hn' by (intros H; apply Hw in H; lia).
  unfold lrun, open_console, fds_fresh in *. simpl.
  run_cases; simplify_eq/=; call_facts; simplify_eq/=.
  all: split; [intros n Hin; rewrite ?H2, ?H4 in *; fresh_fd Hw Hin |].
  all: try done.
  - rewrite H0, H2. done.
  - split; [done |]. apply set_eq. intros x. set_unfold.
    split; [naive_solver |]. intros [-> | Hx]; [split; [by left | lia] |].
    split; [by right; right |]. by intros ->.
Qed.

Lemma launch_fds (options : runvOptions) (tty : option File) (path : string)
    (args : list string) (w : world) :
  fds_fresh w ->
  open_fds (final (lrun (launch options tty path args) w)) =
    open_fds w ∖ match tty with Some f => {[fd f]} | None => ∅ end.
Proof.
  intros Hw. assert (next_fd w ∉ open_fds w) as Hn by (intros H; apply Hw in H; lia).
  launch_cases; simpl in *;
    repeat match goal with
      | H : open_fds _ = _ |- _ => rewrite H in *; clear H
      | H : next_fd _ = _ |- _ => rewrite H in *; clear H
      | H : fd _ = _ |- _ => rewrite H in *; clear H
      end;
    set_solver.
Qed.

Lemma createShim_started_releases_console (options : runvOptions)
    (container process : string) (spec : specs_Process) (w : world) :
  fds_fresh w ->
  let r := lrun (createShim options container process spec) w in
  (exists e cmd, e ∈ trace r /\ spawn_cmd e = Some cmd) ->
  open_fds (final r) = open_fds w.
Proof.
  intros Hw r (e & cmd & He & Hc). subst r.
  destruct (createShim_phases options container process spec w)
    as [(err' & Hr & Hq & Hch)
       | (tty & path & args & w1 & q & Hq & _ & _ & _ & _ & Hcon & Hw1 & Htr & _ & Hfl)].
  - rewrite Forall_forall in Hq. destruct (Hq e He) as (Hn & _). congruence.
  - destruct (open_console_fds options Hw) as [Hfresh Hfds].
    rewrite Hcon, Hw1 in *. rewrite Hfl, launch_fds by done.
    destruct tty as [f |]; [destruct Hfds as [Hf ->] | rewrite Hfds]; set_solver.
Qed.

(** ** shimCommand: the wait for readiness and the exit status *)

Lemma srun_bind {A B : Type} (p : sprog A) (f : A -> sprog B) (w : shim_world) :
  srun (bind p f) w =
    match result (srun p w) with
    | None => mkRun (log (srun p w)) None (final (srun p w))
    | Some a =>
        let r := srun (f a) (final (srun p w)) in
        mkRun (log (srun p w) ++ log r) (result r) (final r)
    end.
Proof. apply exec_bind. Qed.

(** A channel that is empty, holds one signal and is notified of SIGUSR1
    only, as [wait_ready] sets it up. *)
Definition ready_chan (ch : chan_rec) : Prop :=
  buf ch = [] /\ capacity ch = 1%nat /\ forall n, mask ch n = bool_decide (n = SIGUSR1).

Lemma deliver_lookup (n : Z) (cs : list chan_rec) (c : nat) :
  deliver n cs !! c = offer n <$> cs !! c.
Proof. unfold deliver. apply list_lookup_fmap. Qed.

(** A receive on such a channel sleeps through every other signal and wakes
    up with the first SIGUSR1; without one it never returns. *)
Lemma recv_wait_ready (c : nat) (incoming : list Z) (cs : list chan_rec) (ch : chan_rec) :
  cs !! c = Some ch -> ready_chan ch ->
  match recv_wait c incoming cs with
  | Some (s, cs', rest) =>
      s = syscall_Signal SIGUSR1 /\
      exists before, incoming = before ++ SIGUSR1 :: rest /\ SIGUSR1 ∉ before
  | None => SIGUSR1 ∉ incoming
  end.
Proof.
  revert cs ch. induction incoming as [| n rest IH]; intros cs ch Hc (Hb & Hcap & Hm); simpl.
  - unfold recv_now. rewrite Hc, Hb. apply not_elem_of_nil.
  - unfold recv_now at 1. rewrite Hc, Hb.
    destruct (decide (n = SIGUSR1)) as [-> | Hn].
    + assert (deliver SIGUSR1 cs !! c
              = Some (mkChan (capacity ch) [syscall_Signal SIGUSR1] (mask ch))) as Hd.
      { rewrite deliver_lookup, Hc. simpl. unfold offer.
        rewrite Hm, Hb, Hcap. by rewrite bool_decide_eq_true_2. }
      destruct rest as [| m rest']; simpl; unfold recv_now; rewrite Hd; simpl;
        (split; [done |]); exists []; split; try done; apply not_elem_of_nil.
    + assert (deliver n cs !! c = Some ch) as Hd.
      { rewrite deliver_lookup, Hc. simpl. unfold offer.
        rewrite Hm, bool_decide_eq_false_2 by done. done. }
      specialize (IH (deliver n cs) ch Hd (conj Hb (conj Hcap Hm))).
      destruct (recv_wait c rest (deliver n cs)) as [[[s cs'] rest'] |].
      * destruct IH as (-> & before & -> & Hnot). split; [done |].
        exists (n :: before). split; [done |]. by apply not_elem_of_cons.
      * by apply not_elem_of_cons.
Qed.

Lemma wait_ready_spec (w : shim_world) :
  let r := srun wait_ready w in
  let c := length (chans w) in
  senv (final r) = senv w /\
  ((SIGUSR1 ∉ arrivals w /\ result r = None /\
    trace r = [Ev (MakeChan 1) c; Ev (SignalNotify c [SIGUSR1]) ()]) \/
   (exists before rest,
      arrivals w = before ++ SIGUSR1 :: rest /\ SIGUSR1 ∉ before /\
      result r = Some () /\ arrivals (final r) = rest /\
      trace r = [Ev (MakeChan 1) c; Ev (SignalNotify c [SIGUSR1]) ();
                 Ev (Recv c) (syscall_Signal SIGUSR1); Ev (SignalStop c) ()])).
Proof.
  cbv zeta. unfold srun, wait_ready, trace. simpl.
  set (cs := alter (notify [SIGUSR1]) (length (chans w))
               (chans w ++ [mkChan 1 [] (fun _ => false)])).
  assert (cs !! length (chans w)
          = Some (notify [SIGUSR1] (mkChan 1 [] (fun _ => false)))) as Hc.
  { unfold cs. rewrite list_lookup_alter_eq, lookup_app_r by done.
    by rewrite Nat.sub_diag. }
  assert (ready_chan (notify [SIGUSR1] (mkChan 1 [] (fun _ => false)))) as Hr.
  { split_and!; try done. intros n. simpl. unfold mem.
    apply bool_decide_ext. by rewrite list_elem_of_singleton. }
  pose proof (recv_wait_ready (arrivals w) Hc Hr) as Hw.
  destruct (recv_wait (length (chans w)) (arrivals w) cs) as [[[s cs'] rest] |]; simpl.
  - destruct Hw as (-> & before & Harr & Hnot). split; [done |]. right.
    exists before, rest. by split_and!.
  - split; [done |]. left. by split_and!.
Qed.

(** What the Action returns for the code the agent reported. *)
Definition reports (proxy_exit_code : bool) (code : Z) (res : option ExitError) : Prop :=
  if proxy_exit_code
  then exit_status res = code /\
       (code = 0 -> res = None) /\
       (code <> 0 -> res = Some (NewExitError "" code))
  else res = None /\ exit_status res = 0.

Ltac waited_after n :=
  match goal with
  | |- exists pre post, ?tr = _ =>
      exists (take n tr), (drop (S n) tr); reflexivity
  end.

Lemma serve_spec (context : cli_Context) (container process : string) (w : shim_world) :
  (ctx_Bool context "proxy-winsize" = true -> exists saved, raw (senv w) = inl saved) ->
  (ctx_Bool context "proxy-stdio" = true -> outputs_end (senv w) = true) ->
  let r := srun (serve context container process) w in
  let code := exit_code (senv w) in
  exists res, result r = Some res /\
    (exists pre post, trace r = pre ++ Ev (WaitProcess container process) code :: post) /\
    reports (ctx_Bool context "proxy-exit-code") code res.
Proof.
  cbv zeta. unfold srun, serve, proxyStdio, forwardAllSignals, trace, reports.
  destruct (ctx_Bool context "proxy-stdio"), (ctx_Bool context "proxy-winsize"),
    (ctx_Bool context "proxy-signal"), (ctx_Bool context "proxy-exit-code");
    intros Hraw Hout;
    first [specialize (Hraw eq_refl); destruct Hraw as [saved Hraw] | clear Hraw];
    first [specialize (Hout eq_refl) | clear Hout];
    simpl; rewrite ?Hraw; simpl; rewrite ?Hout; simpl.
  all: try (case_bool_decide; simpl; rewrite ?Hout; simpl).
  all: eexists; split_and!; try reflexivity.
  all: try first [ waited_after 0%nat | waited_after 1%nat | waited_after 2%nat
                 | waited_after 3%nat | waited_after 4%nat | waited_after 5%nat
                 | waited_after 6%nat | waited_after 7%nat | waited_after 8%nat
                 | waited_after 9%nat | waited_after 10%nat | waited_after 11%nat
                 | waited_after 12%nat | waited_after 13%nat ].
  all: simpl; split_and?; try done; intros; by simplify_eq.
Qed.

Definition agent_sock (context : cli_Context) : string :=
  filepath.Join [ctx_GlobalString context "root"; ctx_String context "container";
                 "sandbox"; "kata-agent.sock"].

#[local] Arguments srun : simpl never.

(** The Action after a successful connect: the readiness wait for "init",
    then [serve]. *)
Lemma shimCommand_Action_run (context : cli_Context) (w : shim_world) :
  connect (senv w) = None ->
  let container := ctx_String context "container" in
  let process := ctx_String context "process" in
  let r := srun (shimCommand_Action context) w in
  let first := (Ev (NewKataAgent (agent_sock context)) None, w) in
  if bool_decide (process = "init") then
    match result (srun wait_ready w) with
    | None => r = mkRun (first :: log (srun wait_ready w)) None (final (srun wait_ready w))
    | Some _ =>
        let s := srun (serve context container process) (final (srun wait_ready w)) in
        r = mkRun (first :: log (srun wait_ready w) ++ log s) (result s) (final s)
    end
  else
    let s := srun (serve context container process) w in
    r = mkRun (first :: log s) (result s) (final s).
Proof.
  intros Hc. cbv zeta. unfold shimCommand_Action. fold (agent_sock context).
  rewrite srun_bind.
  assert (srun (call (NewKataAgent (agent_sock context))) w
          = mkRun [(Ev (NewKataAgent (agent_sock context)) None, w)] (Some None) w) as ->.
  { unfold srun. simpl. by rewrite Hc. }
  cbv zeta. cbn [result final log app]. rewrite srun_bind. case_bool_decide.
  - by destruct (result (srun wait_ready w)).
  - change (srun (Ret ()) w) with (mkRun (E := SOp) [] (Some ()) w).
    cbv zeta. cbn [result final log app]. by destruct (srun (serve _ _ _) w).
Qed.

(** C4: the readiness wait of "init".  After a successful connect, an Action
    for the process "init" subscribes a channel of capacity one to SIGUSR1
    and receives from it: while no SIGUSR1 arrives it stays blocked there,
    having made no other call; with the first SIGUSR1 it receives exactly
    that one signal, unsubscribes, and only then goes on to the proxies and
    the exit wait.  For any other process id the Action goes from the
    connect straight on, with no subscription and no receive. *)
Theorem shimCommand_waits_for_readiness (context : cli_Context) (w : shim_world) :
  connect (senv w) = None ->
  let container := ctx_String context "container" in
  let process := ctx_String context "process" in
  let r := srun (shimCommand_Action context) w in
  let c := length (chans w) in
  let connected := Ev (NewKataAgent (agent_sock context)) None in
  (process = "init" -> SIGUSR1 ∉ arrivals w ->
     result r = None /\
     trace r = [connected; Ev (MakeChan 1) c; Ev (SignalNotify c [SIGUSR1]) ()]) /\
  (process = "init" -> SIGUSR1 ∈ arrivals w ->
     exists before rest w',
       arrivals w = before ++ SIGUSR1 :: rest /\ SIGUSR1 ∉ before /\
       arrivals w' = rest /\ senv w' = senv w /\
       let s := srun (serve context container process) w' in
       trace r = [connected; Ev (MakeChan 1) c; Ev (SignalNotify c [SIGUSR1]) ();
                  Ev (Recv c) (syscall_Signal SIGUSR1); Ev (SignalStop c) ()] ++ trace s /\
       result r = result s) /\
  (process <> "init" ->
     let s := srun (serve context container process) w in
     trace r = connected :: trace s /\ result r = result s).
Proof.
  intros Hc. cbv zeta. pose proof (shimCommand_Action_run context Hc) as Hrun.
  cbv zeta in Hrun. destruct (wait_ready_spec w) as [Henv Hready]. cbv zeta in Hready.
  split_and!.
  - intros Hinit Hno. rewrite bool_decide_eq_true_2 in Hrun by done.
    destruct Hready as [(_ & Hres & Htr) | (before & rest & Harr & _)].
    + rewrite Hres in Hrun. rewrite Hrun. unfold trace in *. cbn [log result].
      by rewrite fmap_cons, Htr.
    + exfalso. apply Hno. rewrite Harr. apply elem_of_app. right. apply list_elem_of_here.
  - intros Hinit Hyes. rewrite bool_decide_eq_true_2 in Hrun by done.
    destruct Hready as [(Hno & _) | (before & rest & Harr & Hnot & Hres & Hrest & Htr)]; [done |].
    rewrite Hres in Hrun. exists before, rest, (final (srun wait_ready w)).
    split_and!; try done; rewrite Hrun; [| done].
    unfold trace in *. cbn [log result]. by rewrite fmap_cons, fmap_app, Htr.
  - intros Hother. rewrite bool_decide_eq_false_2 in Hrun by done. by rewrite Hrun.
Qed.

Lemma shimCommand_waits_for_readiness_witness :
  let context := sample_context "init" ["proxy-stdio"; "proxy-exit-code"; "proxy-signal"] in
  let connected := Ev (NewKataAgent "/run/runv/c1/sandbox/kata-agent.sock") None in
  result (srun (shimCommand_Action context) (shim_world_of [SIGCHLD; SIGWINCH] (agent_says 137)))
    = None /\
  (exists served,
     trace (srun (shimCommand_Action context) (shim_world_of [SIGCHLD; SIGUSR1] (agent_says 137)))
     = [connected; Ev (MakeChan 1) 0%nat; Ev (SignalNotify 0 [SIGUSR1]) ();
        Ev (Recv 0) (syscall_Signal SIGUSR1); Ev (SignalStop 0) ()] ++ served) /\
  (exists served,
     trace (srun (shimCommand_Action (sample_context "p1" []))
                 (shim_world_of [] (agent_says 137)))
     = connected :: served).
Proof.
  intros context connected. split_and!.
  - apply (shimCommand_waits_for_readiness context
             (w := shim_world_of [SIGCHLD; SIGWINCH] (agent_says 137)) eq_refl).
    + reflexivity.
    + vm_compute. intros H. repeat (apply elem_of_cons in H as [H | H]; [discriminate H |]).
      by apply elem_of_nil in H.
  - destruct (shimCommand_waits_for_readiness context
                (w := shim_world_of [SIGCHLD; SIGUSR1] (agent_says 137)) eq_refl)
      as (_ & H & _).
    destruct H as (before & rest & w' & _ & _ & _ & _ & Htr & _); [reflexivity | |].
    + apply list_elem_of_further, list_elem_of_here.
    + eexists. exact Htr.
  - destruct (shimCommand_waits_for_readiness (sample_context "p1" [])
                (w := shim_world_of [] (agent_says 137)) eq_refl)
      as (_ & _ & H).
    destruct H as [Htr _]; [vm_compute; discriminate |]. eexists. exact Htr.
Defined.

(** C1: the exit status.  In a run where the agent is reached, "init" gets
    its readiness signal, the terminal can be set raw if that was asked for
    and the output loops end if stdio is proxied, the Action calls the
    agent's blocking wait and returns after it: with --proxy-exit-code the
    status is the code the wait reported (nil for 0, an ExitError carrying
    the code otherwise), without it the Action returns nil, status 0,
    whatever the code. *)
Theorem shimCommand_exit_status (context : cli_Context) (w : shim_world) :
  connect (senv w) = None ->
  (ctx_String context "process" = "init" -> SIGUSR1 ∈ arrivals w) ->
  (ctx_Bool context "proxy-winsize" = true -> exists saved, raw (senv w) = inl saved) ->
  (ctx_Bool context "proxy-stdio" = true -> outputs_end (senv w) = true) ->
  let container := ctx_String context "container" in
  let process := ctx_String context "process" in
  let r := srun (shimCommand_Action context) w in
  let code := exit_code (senv w) in
  exists res, result r = Some res /\
    (exists pre post, trace r = pre ++ Ev (WaitProcess container process) code :: post) /\
    (ctx_Bool context "proxy-exit-code" = true ->
       exit_status res = code /\
       (code = 0 -> res = None) /\
       (code <> 0 -> res = Some (NewExitError "" code))) /\
    (ctx_Bool context "proxy-exit-code" = false -> res = None /\ exit_status res = 0).
Proof.
  intros Hc Hinit Hraw Hout. cbv zeta.
  pose proof (shimCommand_Action_run context Hc) as Hrun. cbv zeta in Hrun.
  assert (forall w', senv w' = senv w ->
            exists res,
              result (srun (serve context (ctx_String context "container")
                              (ctx_String context "process")) w') = Some res /\
              (exists pre post,
                 trace (srun (serve context (ctx_String context "container")
                                (ctx_String context "process")) w')
                 = pre ++ Ev (WaitProcess (ctx_String context "container")
                                (ctx_String context "process")) (exit_code (senv w)) :: post) /\
              reports (ctx_Bool context "proxy-exit-code") (exit_code (senv w)) res) as Hserve.
  { intros w' Hw'. rewrite <- Hw'. apply serve_spec; by rewrite Hw'. }
  assert (forall res, reports (ctx_Bool context "proxy-exit-code") (exit_code (senv w)) res ->
            (ctx_Bool context "proxy-exit-code" = true ->
               exit_status res = exit_code (senv w) /\
               (exit_code (senv w) = 0 -> res = None) /\
               (exit_code (senv w) <> 0 -> res = Some (NewExitError "" (exit_code (senv w))))) /\
            (ctx_Bool context "proxy-exit-code" = false -> res = None /\ exit_status res = 0))
    as Hrep.
  { intros res. unfold reports. destruct (ctx_Bool context "proxy-exit-code"); intros H; by split. }
  case_bool_decide as Hp.
  - destruct (wait_ready_spec w) as [Henv Hready]. cbv zeta in Hready.
    destruct Hready as [(Hno & _) | (before & rest & _ & _ & Hres & _ & Htr)];
      [by specialize (Hinit Hp) |].
    rewrite Hres in Hrun.
    destruct (Hserve _ Henv) as (res & Hr & (pre & post & Hs) & Hreports).
    exists res. rewrite Hrun. unfold trace in *. cbn [log result]. split_and!; try done.
    + exists (Ev (NewKataAgent (agent_sock context)) None :: (log (srun wait_ready w)).*1 ++ pre),
        post.
      rewrite fmap_cons, fmap_app, Hs. simpl. by rewrite <- app_assoc.
    + by apply Hrep.
    + by apply Hrep.
  - destruct (Hserve w eq_refl) as (res & Hr & (pre & post & Hs) & Hreports).
    exists res. rewrite Hrun. unfold trace in *. cbn [log result]. split_and!; try done.
    + exists (Ev (NewKataAgent (agent_sock context)) None :: pre), post.
      by rewrite fmap_cons, Hs.
    + by apply Hrep.
    + by apply Hrep.
Qed.

Lemma shimCommand_exit_status_witness :
  exists res,
    result (srun (shimCommand_Action
                    (sample_context "init" ["proxy-stdio"; "proxy-exit-code"; "proxy-signal";
                                            "proxy-winsize"]))
                 (shim_world_of [SIGCHLD; SIGUSR1] (agent_says 137))) = Some res /\
    exit_status res = 137.
Proof.
  destruct (@shimCommand_exit_status
              (sample_context "init" ["proxy-stdio"; "proxy-exit-code"; "proxy-signal";
                                      "proxy-winsize"])
              (shim_world_of [SIGCHLD; SIGUSR1] (agent_says 137)))
    as (res & Hres & _ & Hon & _).
  - reflexivity.
  - intros _. apply list_elem_of_further, list_elem_of_here.
  - intros _. by exists 7.
  - reflexivity.
  - exists res. split; [exact Hres |]. apply Hon. vm_compute. reflexivity.
Defined.

(** ** Goroutines: reachable states *)

Lemma prun_app (s1 s2 : list action) (st : pool) :
  prun (s1 ++ s2) st = prun s1 st ≫= prun s2.
Proof.
  revert st. induction s1 as [| a s1 IH]; intros st; simpl; [done |].
  destruct (pstep a st); simpl; [apply IH | done].
Qed.

(** A property that holds at the start and is kept by every step holds in
    every state a schedule reaches. *)
Lemma prun_invariant (I : pool -> Prop) (st0 : pool) :
  I st0 ->
  (forall a st st', I st -> pstep a st = Some st' -> I st') ->
  forall sched st, prun sched st0 = Some st -> I st.
Proof.
  intros H0 Hstep sched. revert st0 H0.
  induction sched as [| a sched IH]; intros st0 H0 st; simpl.
  - by intros [= <-].
  - destruct (pstep a st0) as [st1 |] eqn:E; [| done]. apply IH. by eapply Hstep.
Qed.


(** *** The stdio proxy *)

Section stdio.
Variables container process : string.



















End stdio.







(** *** The signal forwarder *)

Lemma received_snoc (tr : list (nat * event SOp)) (tid : nat) (e : event SOp) :
  received (tr ++ [(tid, e)]) = received tr ++ received_of e.
Proof. unfold received. rewrite bind_app. simpl. by rewrite app_nil_r. Qed.

Lemma forwarded_snoc (tr : list (nat * event SOp)) (tid : nat) (e : event SOp) :
  forwarded (tr ++ [(tid, e)]) = forwarded tr ++ forwarded_of e.
Proof. unfold forwarded. rewrite bind_app. simpl. by rewrite app_nil_r. Qed.

(** The loop's test is the filter of [forwardable]. *)
Lemma sig_is_filter (n : Z) :
  sig_is (syscall_Signal n) SIGCHLD || sig_is (syscall_Signal n) SIGPIPE
  || sig_is (syscall_Signal n) SIGWINCH
  = mem n [SIGCHLD; SIGPIPE; SIGWINCH].
Proof.
  unfold sig_is, mem.
  destruct (decide (n = SIGCHLD)) as [-> | H1]; [done |].
  destruct (decide (n = SIGPIPE)) as [-> | H2]; [done |].
  destruct (decide (n = SIGWINCH)) as [-> | H3]; [done |].
  rewrite !bool_decide_eq_false_2; try done; try congruence.
  rewrite !elem_of_cons, elem_of_nil. tauto.
Qed.

Lemma buf0_deliver (n : Z) (cs : list chan_rec) :
  buf0 (deliver n cs) = buf0 cs \/ buf0 (deliver n cs) = buf0 cs ++ [syscall_Signal n].
Proof.
  unfold buf0. rewrite deliver_lookup. destruct (cs !! 0%nat) as [ch |]; simpl; [| by left].
  unfold offer. destruct (mask ch n && _); simpl; auto.
Qed.

Section signals.
Variables container process : string.

Inductive sowner_pos : Type :=
| so_make | so_notify | so_ignore | so_go | so_wait | so_stop | so_end.

Inductive loop_pos : Type :=
| sl_first
| sl_again
| sl_got (s : os_Signal)
| sl_log1 (msg : string) (args : list (option error))
| sl_log2 (msg : string) (args : list (option error)).

Definition sowner_code (pos : sowner_pos) : sprog unit :=
  let rest := fun sigc : nat =>
    call (WaitProcess container process);;; call (SignalStop sigc) in
  match pos with
  | so_make => signal_owner container process
  | so_notify =>
      bind (call (SignalNotify 0 []);;;
            call (SignalIgnore [SIGCHLD; SIGPIPE]);;;
            call (Go (signal_loop 0 container process));;;
            Ret 0%nat) rest
  | so_ignore =>
      bind (call (SignalIgnore [SIGCHLD; SIGPIPE]);;;
            call (Go (signal_loop 0 container process));;;
            Ret 0%nat) rest
  | so_go => bind (call (Go (signal_loop 0 container process));;; Ret 0%nat) rest
  | so_wait => rest 0%nat
  | so_stop => call (SignalStop 0)
  | so_end => Ret ()
  end.

Definition loop_code (pos : loop_pos) : sprog unit :=
  match pos with
  | sl_first => signal_loop_body 0 container process
  | sl_again => Ret ()
  | sl_got s => forward_one container process s
  | sl_log1 msg args => call (Stderr_Fprintf msg args);;; call (Glog_Errorf msg args)
  | sl_log2 msg args => call (Glog_Errorf msg args)
  end.

Definition loop_started (pos : sowner_pos) : bool :=
  match pos with
  | so_wait | so_stop | so_end => true
  | _ => false
  end.

Definition sthreads_of (o : sowner_pos) (l : loop_pos) : list thread :=
  mkThread (sowner_code o) None ::
  (if loop_started o
   then [mkThread (loop_code l) (Some (signal_loop_body 0 container process))]
   else []).

(** The channel as the owner's position leaves it. *)
Definition mask_at (pos : sowner_pos) (n : Z) : bool :=
  match pos with
  | so_make | so_notify | so_end => false
  | so_ignore => true
  | so_go | so_wait | so_stop => negb (mem n [SIGCHLD; SIGPIPE])
  end.

Definition chans_at (pos : sowner_pos) (cs : list chan_rec) : Prop :=
  match pos with
  | so_make => cs = []
  | _ => exists ch, cs = [ch] /\ capacity ch = 2048%nat /\
                    (length (buf ch) <= 2048)%nat /\
                    forall n, mask ch n = mask_at pos n
  end.

Definition signal_inv (st : pool) : Prop :=
  exists o l,
    threads st = sthreads_of o l /\
    (loop_started o = false -> l = sl_first) /\
    chans_at o (chans (pw st)) /\
    (received (ptrace st) ++ sigc_buf st) `sublist_of` (syscall_Signal <$> seen st) /\
    match l with
    | sl_got s =>
        exists handled, received (ptrace st) = handled ++ [s] /\
                        forwarded (ptrace st) = omap forwardable handled
    | _ => forwarded (ptrace st) = omap forwardable (received (ptrace st))
    end.

Lemma signal_inv_start : signal_inv (start (signal_owner container process)).
Proof. exists so_make, sl_first. by split_and!. Qed.

Lemma chans_at_deliver (o : sowner_pos) (n : Z) (cs : list chan_rec) :
  chans_at o cs -> chans_at o (deliver n cs).
Proof.
  destruct o; simpl; [by intros -> |..];
    intros (ch & -> & Hcap & Hlen & Hm); simpl;
    (eexists; split; [reflexivity |]); unfold offer;
    destruct (mask ch n && (length (buf ch) <? capacity ch)%nat) eqn:E; simpl;
    split_and!; try done;
    apply andb_true_iff in E as [_ E]; apply Nat.ltb_lt in E;
    rewrite length_app; simpl; lia.
Qed.

Lemma chans_at_started (o : sowner_pos) (cs : list chan_rec) :
  loop_started o = true -> chans_at o cs ->
  exists ch, cs = [ch] /\ chans_at o [pop ch].
Proof.
  destruct o; try done; intros _ (ch & -> & Hcap & Hlen & Hm);
    exists ch; (split; [done |]); exists (pop ch); split_and!; try done;
    simpl; destruct (buf ch); simpl in *; lia.
Qed.

#[local] Arguments sig_is : simpl never.
#[local] Arguments buf0 : simpl never.

Ltac sig_step o' l' :=
  simplify_eq/=; exists o', l'; unfold sigc_buf, buf0 in *; simpl in *;
  rewrite ?received_snoc, ?forwarded_snoc; simpl; rewrite ?app_nil_r in *;
  split_and!; try done;
  try (eexists; split_and!; [reflexivity | simpl; try done; try lia ..]).

(** A step of the loop thread, to position [l']. *)
Ltac loop_step o' l' :=
  exists o', l'; unfold sigc_buf, buf0 in *; simpl;
  rewrite ?received_snoc, ?forwarded_snoc; simpl; rewrite ?app_nil_r;
  match goal with Hb : buf _ = _ |- _ => rewrite ?Hb | _ => idtac end; simpl;
  split_and!;
  [ match goal with H : forall l, sthreads_of _ l = _ |- _ => by rewrite H end
  | match goal with H : loop_started _ = true |- _ => by rewrite H end
  | assumption
  | try assumption
  | try assumption ].

Lemma signal_inv_step (a : action) (st st' : pool) :
  signal_inv st -> pstep a st = Some st' -> signal_inv st'.
Proof.
  intros (o & l & Hth & Hl & Hch & Hsub & Hfwd) Hstep.
  destruct st as [ths [cs ar g ev] tr sn]. unfold sigc_buf in *. simpl in *. subst ths.
  unfold pstep in Hstep. destruct (alive _); [| done].
  destruct a as [n | tid env].
  - (* a signal arrives *)
    simplify_eq/=. exists o, l. unfold sigc_buf. simpl. split_and!; try done.
    + by apply chans_at_deliver.
    + rewrite fmap_app. destruct (buf0_deliver n cs) as [-> | ->].
      * by apply sublist_inserts_r.
      * rewrite app_assoc. by apply sublist_app.
  - simpl in Hstep. unfold sthreads_of in Hstep.
    destruct tid as [| [| tid]].
    + (* the owner *)
      destruct o; simpl in Hch; [subst cs | destruct Hch as (ch & -> & Hcap & Hlen & Hm)..];
        simpl in Hstep; unfold run_thread in Hstep; simpl in Hstep.
      * sig_step so_notify l.
      * sig_step so_ignore l.
      * sig_step so_go l. intros n. by rewrite Hm.
      * specialize (Hl eq_refl). subst l. sig_step so_wait sl_first.
      * sig_step so_stop l.
      * sig_step so_end l.
      * done.
    + (* the loop *)
      destruct (loop_started o) eqn:Hs.
      2:{ destruct o; simpl in Hs; try done; simpl in Hstep; done. }
      clear Hl.
      destruct (chans_at_started Hs Hch) as (ch & -> & Hpop).
      assert (forall l', sthreads_of o l'
                = [mkThread (sowner_code o) None;
                   mkThread (loop_code l') (Some (signal_loop_body 0 container process))])
        as Hths by (intros l'; unfold sthreads_of; by rewrite Hs).
      unfold buf0 in Hsub.
      change (run_thread 1
                (mkThread (loop_code l) (Some (signal_loop_body 0 container process)))
                (mkPool [mkThread (sowner_code o) None;
                         mkThread (loop_code l)
                           (Some (signal_loop_body 0 container process))]
                        (mkShimWorld [ch] ar g env) tr sn) = Some st') in Hstep.
      unfold run_thread in Hstep.
      destruct l as [| | [n | name] | msg args | msg args].
      * (* at the receive, first round *)
        simpl in Hstep. unfold recv_now in Hstep. simpl in Hstep.
        destruct (buf ch) as [| s rest] eqn:Hb; simpl in Hstep; [done |].
        injection Hstep as <-. loop_step o (sl_got s).
        -- rewrite <- app_assoc. simpl in Hsub. by rewrite Hb in Hsub.
        -- by exists (received tr).
      * (* at the receive, a later round *)
        simpl in Hstep. unfold recv_now in Hstep. simpl in Hstep.
        destruct (buf ch) as [| s rest] eqn:Hb; simpl in Hstep; [done |].
        injection Hstep as <-. loop_step o (sl_got s).
        -- rewrite <- app_assoc. simpl in Hsub. by rewrite Hb in Hsub.
        -- by exists (received tr).
      * (* a syscall.Signal in hand *)
        destruct Hfwd as (handled & HR & HF).
        unfold loop_code, forward_one in Hstep. rewrite sig_is_filter in Hstep.
        destruct (mem n [SIGCHLD; SIGPIPE; SIGWINCH]) eqn:E; simpl in Hstep.
        -- unfold recv_now in Hstep. simpl in Hstep.
           destruct (buf ch) as [| s rest] eqn:Hb; simpl in Hstep; [done |].
           injection Hstep as <-. loop_step o (sl_got s).
           ++ rewrite <- app_assoc. simpl in Hsub. by rewrite Hb in Hsub.
           ++ exists (received tr). split; [done |].
              rewrite HF, HR, omap_app. simpl. rewrite E. simpl. by rewrite app_nil_r.
        -- destruct (signal_err env n) as [err |] eqn:Herr; simpl in Hstep;
             injection Hstep as <-.
           ++ loop_step o (sl_log1 ("forward signal " +:+ Signal_String (syscall_Signal n)
                                    +:+ " failed") [Some err]).
              rewrite HF, HR, omap_app. simpl. by rewrite E.
           ++ loop_step o sl_again.
              rewrite HF, HR, omap_app. simpl. by rewrite E.
      * (* some other os.Signal in hand *)
        destruct Hfwd as (handled & HR & HF).
        unfold loop_code, forward_one, sig_is in Hstep. simpl in Hstep.
        injection Hstep as <-.
        loop_step o (sl_log2 ("can't forward unknown signal "
                              +:+ Signal_String (other_Signal name)) []).
        rewrite HF, HR, omap_app. simpl. by rewrite app_nil_r.
      * simpl in Hstep. injection Hstep as <-. loop_step o (sl_log2 msg args).
      * simpl in Hstep. injection Hstep as <-. loop_step o sl_again.
    + destruct (loop_started o); simpl in Hstep; done.
Qed.
End signals.

Lemma signal_reachable (container process : string) (sched : list action) (st : pool) :
  prun sched (start (signal_owner container process)) = Some st ->
  signal_inv container process st.
Proof.
  apply prun_invariant.
  - apply signal_inv_start.
  - intros a s s'. apply signal_inv_step.
Qed.

Lemma forwardable_not_filtered (s : os_Signal) (n : Z) :
  forwardable s = Some n ->
  s = syscall_Signal n /\ n <> SIGCHLD /\ n <> SIGPIPE /\ n <> SIGWINCH.
Proof.
  destruct s as [m | name]; simpl; [| done].
  destruct (mem m [SIGCHLD; SIGPIPE; SIGWINCH]) eqn:E; [done |]. intros [= ->].
  unfold mem in E. apply bool_decide_eq_false_1 in E.
  rewrite !elem_of_cons, elem_of_nil in E. split_and!; [done | intros -> ..]; tauto.
Qed.

(** What the loop does with one signal, whatever the agent answers. *)
Lemma forward_one_run (container process : string) (s : os_Signal) (w : shim_world) :
  let r := srun (forward_one container process s) w in
  result r = Some () /\
  match forwardable s with
  | Some n =>
      forwarded_of <$> trace r
        = [n] :: ((fun _ => []) <$> drop 1 (trace r)) /\
      match signal_err (senv w) n with
      | None => trace r = [Ev (SignalProcess container process n) None]
      | Some err =>
          exists msg,
            trace r = [Ev (SignalProcess container process n) (Some err);
                       Ev (Stderr_Fprintf msg [Some err]) ();
                       Ev (Glog_Errorf msg [Some err]) ()]
      end
  | None =>
      match s with
      | syscall_Signal _ => trace r = []
      | other_Signal _ =>
          exists msg, trace r = [Ev (Stderr_Fprintf msg []) (); Ev (Glog_Errorf msg []) ()]
      end
  end.
Proof.
  cbv zeta. unfold srun, trace, forward_one.
  destruct s as [n | name].
  - rewrite sig_is_filter. simpl.
    destruct (mem n [SIGCHLD; SIGPIPE; SIGWINCH]) eqn:E; simpl; [done |].
    destruct (signal_err (senv w) n) as [err |]; simpl; split_and!; try done. by eexists.
  - simpl. split; [done |]. by eexists.
Qed.

(** The channel forwardAllSignals sets up. *)
Lemma forwardAllSignals_run (container process : string) (w : shim_world) :
  let r := srun (forwardAllSignals container process) w in
  let sigc := length (chans w) in
  result r = Some sigc /\
  trace r = [Ev (MakeChan 2048) sigc; Ev (SignalNotify sigc []) ();
             Ev (SignalIgnore [SIGCHLD; SIGPIPE]) ();
             Ev (Go (signal_loop sigc container process)) ()] /\
  exists ch, chans (final r) !! sigc = Some ch /\
             capacity ch = 2048%nat /\ buf ch = [] /\
             forall n, mask ch n = negb (mem n [SIGCHLD; SIGPIPE]).
Proof.
  cbv zeta. unfold srun, forwardAllSignals, trace. simpl. split_and!; try done.
  eexists. split.
  - rewrite list_lookup_fmap, list_lookup_alter_eq, lookup_app_r by done.
    rewrite Nat.sub_diag. simpl. reflexivity.
  - by split_and!.
Qed.

(** C2: the signal forwarder.  forwardAllSignals makes a channel of capacity
    2048, subscribes it to all signals, takes SIGCHLD and SIGPIPE out again
    and starts the loop; the channel it leaves takes any other signal and
    drops these two at delivery.  The loop handles one signal at a time: it
    sends SIGCHLD, SIGPIPE and SIGWINCH to nobody, it sends every other
    syscall.Signal to the agent by its number, once, and logs twice when the
    agent fails; a value that is no syscall.Signal is logged and not sent;
    in every case the round ends.  In every state the running forwarder can
    reach: none of the three signals was ever sent; the numbers sent are
    those of the signals the loop received, in the order it received them,
    one each, up to the signal it has in hand; the signals received and
    buffered are signals that arrived, in their order of arrival; the buffer
    holds at most 2048; once the loop runs, an arriving SIGCHLD or SIGPIPE
    leaves the buffer as it is; and while the process runs and a signal is
    buffered, the loop can make its next call whatever the agent answered
    before. *)
Theorem forwardAllSignals_forwards (container process : string) :
  (forall w,
     let r := srun (forwardAllSignals container process) w in
     let sigc := length (chans w) in
     result r = Some sigc /\
     trace r = [Ev (MakeChan 2048) sigc; Ev (SignalNotify sigc []) ();
                Ev (SignalIgnore [SIGCHLD; SIGPIPE]) ();
                Ev (Go (signal_loop sigc container process)) ()] /\
     exists ch, chans (final r) !! sigc = Some ch /\
                capacity ch = 2048%nat /\ buf ch = [] /\
                offer SIGCHLD ch = ch /\ offer SIGPIPE ch = ch /\
                forall n, n <> SIGCHLD -> n <> SIGPIPE ->
                          buf (offer n ch) = [syscall_Signal n]) /\
  (forall w s,
     let r := srun (forward_one container process s) w in
     result r = Some () /\
     match forwardable s with
     | Some n =>
         match signal_err (senv w) n with
         | None => trace r = [Ev (SignalProcess container process n) None]
         | Some err =>
             exists msg,
               trace r = [Ev (SignalProcess container process n) (Some err);
                          Ev (Stderr_Fprintf msg [Some err]) ();
                          Ev (Glog_Errorf msg [Some err]) ()]
         end
     | None =>
         match s with
         | syscall_Signal n => trace r = [] /\ n ∈ [SIGCHLD; SIGPIPE; SIGWINCH]
         | other_Signal _ =>
             exists msg, trace r = [Ev (Stderr_Fprintf msg []) (); Ev (Glog_Errorf msg []) ()]
         end
     end) /\
  (forall sched st,
     prun sched (start (signal_owner container process)) = Some st ->
     let tr := ptrace st in
     (forall n, n ∈ forwarded tr -> n <> SIGCHLD /\ n <> SIGPIPE /\ n <> SIGWINCH) /\
     (forwarded tr = omap forwardable (received tr) \/
      exists handled s, received tr = handled ++ [s] /\
                        forwarded tr = omap forwardable handled) /\
     (received tr ++ sigc_buf st) `sublist_of` (syscall_Signal <$> seen st) /\
     (length (sigc_buf st) <= 2048)%nat /\
     (forall n st', is_Some (threads st !! 1%nat) -> n ∈ [SIGCHLD; SIGPIPE] ->
        pstep (Arrive n) st = Some st' -> sigc_buf st' = sigc_buf st) /\
     (alive st = true -> is_Some (threads st !! 1%nat) -> sigc_buf st <> [] ->
      forall env, is_Some (pstep (Step 1 env) st))).
Proof.
  split_and!.
  - intros w. cbv zeta.
    destruct (forwardAllSignals_run container process w) as (Hr & Ht & ch & Hc & Hcap & Hb & Hm).
    split_and!; try done. exists ch. split_and!; try done.
    + unfold offer. by rewrite Hm.
    + unfold offer. by rewrite Hm.
    + intros n H1 H2. unfold offer. rewrite Hm, Hb, Hcap. simpl.
      unfold mem. rewrite bool_decide_eq_false_2; [done |].
      rewrite !elem_of_cons, elem_of_nil. tauto.
  - intros w s. cbv zeta.
    destruct (forward_one_run container process s w) as [Hr Ht]. split; [done |].
    destruct (forwardable s) as [n |] eqn:Hf.
    + by destruct Ht as [_ Ht].
    + destruct s as [n | name]; [| done]. split; [done |].
      simpl in Hf. destruct (mem n [SIGCHLD; SIGPIPE; SIGWINCH]) eqn:E; [| done].
      by apply bool_decide_eq_true_1 in E.
  - intros sched st Hrun. cbv zeta.
    destruct (signal_reachable Hrun) as (o & l & Hth & Hl & Hch & Hsub & Hfwd).
    assert (forall (X : list os_Signal) n, n ∈ omap forwardable X ->
              n <> SIGCHLD /\ n <> SIGPIPE /\ n <> SIGWINCH) as Hnot.
    { intros X n Hn. apply list_elem_of_omap in Hn as (s & _ & Hs).
      by apply forwardable_not_filtered in Hs as (_ & ? & ? & ?). }
    destruct st as [ths [cs ar g ev] tr sn]. unfold sigc_buf in *. simpl in *. subst ths.
    split_and!.
    + intros n Hn. destruct l; try (rewrite Hfwd in Hn; by eapply Hnot).
      destruct Hfwd as (handled & _ & HF). rewrite HF in Hn. by eapply Hnot.
    + destruct l; try (by left). right. destruct Hfwd as (handled & HR & HF).
      by exists handled, s.
    + done.
    + unfold buf0. destruct o; simpl in Hch; [subst cs; simpl; lia |..];
        by destruct Hch as (ch & -> & _ & Hlen & _).
    + intros n st' Ht Hn Hstep. unfold pstep in Hstep.
      destruct (alive _); [| done]. injection Hstep as <-. simpl.
      assert (loop_started o = true) as Hs.
      { unfold sthreads_of in Ht. destruct (loop_started o); [done |].
        simpl in Ht. by destruct Ht. }
      assert (mem n [SIGCHLD; SIGPIPE] = true) as Hmem by by apply bool_decide_eq_true_2.
      unfold buf0.
      destruct o; simpl in Hs; try done; destruct Hch as (ch & -> & _ & _ & Hm);
        simpl; unfold offer; rewrite Hm; simpl; by rewrite ?Hmem.
    + intros Halive Ht Hne env.
      assert (loop_started o = true) as Hs.
      { unfold sthreads_of in Ht. destruct (loop_started o); [done |].
        simpl in Ht. by destruct Ht. }
      destruct (chans_at_started Hs Hch) as (ch & -> & _).
      unfold buf0 in Hne. simpl in Hne.
      unfold pstep. rewrite Halive. unfold sthreads_of. rewrite Hs. simpl.
      unfold run_thread.
      destruct l as [| | [n | name] | msg args | msg args]; simpl.
      * unfold recv_now. simpl. by destruct (buf ch).
      * unfold recv_now. simpl. by destruct (buf ch).
      * unfold forward_one. rewrite sig_is_filter.
        destruct (mem n [SIGCHLD; SIGPIPE; SIGWINCH]); simpl; [| done].
        unfold recv_now. simpl. by destruct (buf ch).
      * done.
      * done.
      * done.
Qed.

Lemma forwardAllSignals_forwards_witness :
  exists st,
    prun [Step 0 always_ok; Step 0 always_ok; Step 0 always_ok; Step 0 always_ok;
          Arrive SIGCHLD; Arrive 15; Arrive SIGWINCH; Arrive 2;
          Step 1 always_ok; Step 1 always_ok; Step 1 always_ok; Step 1 always_ok;
          Step 1 always_ok]
         (start (signal_owner "c1" "init")) = Some st /\
    received (ptrace st) = [syscall_Signal 15; syscall_Signal SIGWINCH; syscall_Signal 2] /\
    forwarded (ptrace st) = [15; 2] /\
    (forall n, n ∈ forwarded (ptrace st) -> n <> SIGCHLD /\ n <> SIGPIPE /\ n <> SIGWINCH).
Proof.
  pose (sched := [Step 0 always_ok; Step 0 always_ok; Step 0 always_ok; Step 0 always_ok;
                  Arrive SIGCHLD; Arrive 15; Arrive SIGWINCH; Arrive 2;
                  Step 1 always_ok; Step 1 always_ok; Step 1 always_ok; Step 1 always_ok;
                  Step 1 always_ok]).
  pose (ost := prun sched (start (signal_owner "c1" "init"))).
  vm_compute in ost.
  match goal with ost := Some ?s |- _ => pose (st := s) end.
  assert (prun sched (start (signal_owner "c1" "init")) = Some st) as E
    by (vm_compute; reflexivity).
  destruct (forwardAllSignals_forwards "c1" "init") as (_ & _ & H).
  destruct (H sched st E) as (Hnot & _).
  exists st. split_and!; [exact E | vm_compute; reflexivity | vm_compute; reflexivity | exact Hnot].
Defined.

(** * Further properties of cli/shim.go *)

(** ** shimCommand: failures, order of activation, deferred calls *)

Definition when {A : Type} (b : bool) (l : list A) : list A := if b then l else [].

(** The calls each proxy mode makes when it is switched on. *)
Definition stdio_calls (container process : string) : list (event SOp) :=
  [Ev (WgAdd 2) (); Ev (StdioPipe container process) ();
   Ev (Go (copy_stdin container process)) (); Ev (Go copy_stdout) (); Ev (Go copy_stderr) ()].

Definition winsize_calls (container process : string) (saved : Z) : list (event SOp) :=
  [Ev (Glog_Infof "using shim to proxy winsize" []) (); Ev SetRawTerminal (inl saved);
   Ev (MonitorTtySize container process) ()].

Definition signal_calls (container process : string) (sigc : nat) : list (event SOp) :=
  [Ev (Glog_Infof "using shim to proxy signal" []) (); Ev (MakeChan 2048) sigc;
   Ev (SignalNotify sigc []) (); Ev (SignalIgnore [SIGCHLD; SIGPIPE]) ();
   Ev (Go (signal_loop sigc container process)) ()].

(** What the Action does before it serves: the connect, and for "init" the
    readiness wait on channel [c]. *)
Definition setup_calls (context : cli_Context) (c : nat) : list (event SOp) :=
  Ev (NewKataAgent (agent_sock context)) None ::
  when (bool_decide (ctx_String context "process" = "init"))
    [Ev (MakeChan 1) c; Ev (SignalNotify c [SIGUSR1]) ();
     Ev (Recv c) (syscall_Signal SIGUSR1); Ev (SignalStop c) ()].

(** The connect fails: the Action returns an ExitError with code -1 and has
    made no other call. *)
Theorem shimCommand_connect_failure (context : cli_Context) (w : shim_world) (err : error) :
  connect (senv w) = Some err ->
  let r := srun (shimCommand_Action context) w in
  trace r = [Ev (NewKataAgent (agent_sock context)) (Some err)] /\
  (exists e, result r = Some (Some e) /\ exitCode e = -1) /\
  final r = w.
Proof.
  intros Hc. cbv zeta. unfold srun, shimCommand_Action, trace. simpl. rewrite Hc. simpl.
  split_and!; try done. by eexists.
Qed.

Lemma shimCommand_connect_failure_witness :
  exit_status <$> result (srun (shimCommand_Action (sample_context "init" ["proxy-stdio"]))
                     (shim_world_of [] (mkShimOracle (Some ECONNREFUSED) (inl 0) 0
                                          (fun _ => None) None (fun _ => None) false)))
  = Some (-1).
Proof.
  destruct (@shimCommand_connect_failure (sample_context "init" ["proxy-stdio"])
              (shim_world_of [] (mkShimOracle (Some ECONNREFUSED) (inl 0) 0
                                   (fun _ => None) None (fun _ => None) false))
              ECONNREFUSED eq_refl) as (_ & (e & -> & He) & _).
  simpl. by rewrite He.
Defined.

Lemma recv_wait_length (c : nat) (incoming : list Z) (cs cs' : list chan_rec)
    (s : os_Signal) (rest : list Z) :
  recv_wait c incoming cs = Some (s, cs', rest) -> length cs' = length cs.
Proof.
  revert cs. induction incoming as [| n more IH]; intros cs; simpl.
  - unfold recv_now. destruct (cs !! c) as [ch |]; [| done].
    destruct (buf ch); [done |]. intros [= _ <- _]. apply length_alter.
  - unfold recv_now at 1. destruct (cs !! c) as [ch |].
    + destruct (buf ch).
      * intros H. apply IH in H. unfold deliver in H. by rewrite length_fmap in H.
      * intros [= _ <- _]. apply length_alter.
    + intros H. apply IH in H. unfold deliver in H. by rewrite length_fmap in H.
Qed.

Lemma wait_ready_length (w : shim_world) :
  result (srun wait_ready w) = Some () ->
  length (chans (final (srun wait_ready w))) = S (length (chans w)).
Proof.
  unfold srun, wait_ready. simpl.
  destruct (recv_wait _ _ _) as [[[s cs] rest] |] eqn:E; simpl; [| done].
  intros _. rewrite length_alter. apply recv_wait_length in E. rewrite E.
  rewrite length_alter, length_app. simpl. lia.
Qed.

(** Once connected, and with the readiness signal for "init", the Action is
    its setup calls followed by [serve] on a world with the same agent. *)
Lemma shimCommand_Action_served (context : cli_Context) (w : shim_world) :
  connect (senv w) = None ->
  (ctx_String context "process" = "init" -> SIGUSR1 ∈ arrivals w) ->
  let r := srun (shimCommand_Action context) w in
  exists w',
    senv w' = senv w /\
    length (chans w')
      = (if bool_decide (ctx_String context "process" = "init")
         then S (length (chans w)) else length (chans w)) /\
    let s := srun (serve context (ctx_String context "container")
                     (ctx_String context "process")) w' in
    trace r = setup_calls context (length (chans w)) ++ trace s /\
    result r = result s.
Proof.
  intros Hc Hinit. cbv zeta.
  pose proof (shimCommand_Action_run context Hc) as Hrun. cbv zeta in Hrun.
  unfold setup_calls. case_bool_decide as Hp.
  - destruct (wait_ready_spec w) as [Henv Hready]. cbv zeta in Hready.
    destruct Hready as [(Hno & _) | (before & rest & _ & _ & Hres & _ & Htr)];
      [by specialize (Hinit Hp) |].
    rewrite Hres in Hrun. exists (final (srun wait_ready w)).
    split_and!; try done.
    + by apply wait_ready_length.
    + rewrite Hrun. unfold trace in *. cbn [log result when].
      by rewrite fmap_cons, fmap_app, Htr.
    + by rewrite Hrun.
  - exists w. split_and!; try done; by rewrite Hrun.
Qed.

Lemma serve_trace (context : cli_Context) (container process : string) (w : shim_world)
    (saved : Z) :
  (ctx_Bool context "proxy-winsize" = true -> raw (senv w) = inl saved) ->
  (ctx_Bool context "proxy-stdio" = true -> outputs_end (senv w) = true) ->
  trace (srun (serve context container process) w)
  = when (ctx_Bool context "proxy-stdio") (stdio_calls container process)
    ++ when (ctx_Bool context "proxy-winsize") (winsize_calls container process saved)
    ++ when (ctx_Bool context "proxy-signal")
         (signal_calls container process (length (chans w)))
    ++ [Ev (WaitProcess container process) (exit_code (senv w))]
    ++ when (ctx_Bool context "proxy-exit-code")
         [Ev (Glog_Infof "using shim to proxy exit code: %d" []) ()]
    ++ when (ctx_Bool context "proxy-signal") [Ev (SignalStop (length (chans w))) ()]
    ++ when (ctx_Bool context "proxy-winsize") [Ev (RestoreTerminal saved) ()]
    ++ when (ctx_Bool context "proxy-stdio") [Ev WgWait ()].
Proof.
  unfold srun, serve, proxyStdio, forwardAllSignals, trace.
  destruct (ctx_Bool context "proxy-stdio"), (ctx_Bool context "proxy-winsize"),
    (ctx_Bool context "proxy-signal"), (ctx_Bool context "proxy-exit-code");
    intros Hraw Hout;
    first [specialize (Hraw eq_refl) | clear Hraw];
    first [specialize (Hout eq_refl) | clear Hout];
    simpl; rewrite ?Hraw; simpl; rewrite ?Hout; simpl.
  all: try (case_bool_decide; simpl; rewrite ?Hout; simpl).
  all: reflexivity.
Qed.

(** The order of a served run.  When the Action can finish, its calls are:
    the setup; then the proxies in the order stdio, winsize, signal, each
    only if asked for; then the agent's wait; then, at return, the deferred
    calls in the reverse order of their registration: signal.Stop, the
    restore of the terminal to the state SetRawTerminal saved, wg.Wait. *)
Theorem shimCommand_order (context : cli_Context) (w : shim_world) (saved : Z) :
  connect (senv w) = None ->
  (ctx_String context "process" = "init" -> SIGUSR1 ∈ arrivals w) ->
  (ctx_Bool context "proxy-winsize" = true -> raw (senv w) = inl saved) ->
  (ctx_Bool context "proxy-stdio" = true -> outputs_end (senv w) = true) ->
  let container := ctx_String context "container" in
  let process := ctx_String context "process" in
  let sigc := if bool_decide (process = "init")
              then S (length (chans w)) else length (chans w) in
  trace (srun (shimCommand_Action context) w)
  = setup_calls context (length (chans w))
    ++ when (ctx_Bool context "proxy-stdio") (stdio_calls container process)
    ++ when (ctx_Bool context "proxy-winsize") (winsize_calls container process saved)
    ++ when (ctx_Bool context "proxy-signal") (signal_calls container process sigc)
    ++ [Ev (WaitProcess container process) (exit_code (senv w))]
    ++ when (ctx_Bool context "proxy-exit-code")
         [Ev (Glog_Infof "using shim to proxy exit code: %d" []) ()]
    ++ when (ctx_Bool context "proxy-signal") [Ev (SignalStop sigc) ()]
    ++ when (ctx_Bool context "proxy-winsize") [Ev (RestoreTerminal saved) ()]
    ++ when (ctx_Bool context "proxy-stdio") [Ev WgWait ()].
Proof.
  intros Hc Hinit Hraw Hout. cbv zeta.
  destruct (shimCommand_Action_served (context := context) Hc Hinit) as (w' & Henv & Hlen & Htr & _).
  rewrite Htr, <- Hlen, <- Henv. f_equal. apply serve_trace; by rewrite Henv.
Qed.

Lemma shimCommand_order_witness :
  trace (srun (shimCommand_Action
                 (sample_context "init" ["proxy-stdio"; "proxy-signal"; "proxy-winsize"]))
              (shim_world_of [SIGUSR1] (agent_says 3)))
  = [Ev (NewKataAgent "/run/runv/c1/sandbox/kata-agent.sock") None;
     Ev (MakeChan 1) 0%nat; Ev (SignalNotify 0 [SIGUSR1]) ();
     Ev (Recv 0) (syscall_Signal SIGUSR1); Ev (SignalStop 0) ()]
    ++ stdio_calls "c1" "init" ++ winsize_calls "c1" "init" 7 ++ signal_calls "c1" "init" 1
    ++ [Ev (WaitProcess "c1" "init") 3;
        Ev (SignalStop 1) (); Ev (RestoreTerminal 7) (); Ev WgWait ()].
Proof.
  apply (@shimCommand_order
           (sample_context "init" ["proxy-stdio"; "proxy-signal"; "proxy-winsize"])
           (shim_world_of [SIGUSR1] (agent_says 3)) 7).
  - reflexivity.
  - intros _. apply list_elem_of_here.
  - reflexivity.
  - reflexivity.
Defined.

Lemma serve_raw_failure (context : cli_Context) (container process : string)
    (w : shim_world) (err : error) :
  ctx_Bool context "proxy-winsize" = true -> raw (senv w) = inr err ->
  let r := srun (serve context container process) w in
  let stdio := ctx_Bool context "proxy-stdio" in
  trace r = when stdio (stdio_calls container process)
            ++ [Ev (Glog_Infof "using shim to proxy winsize" []) ();
                Ev SetRawTerminal (inr err)]
            ++ when (stdio && outputs_end (senv w)) [Ev WgWait ()] /\
  result r = if stdio && negb (outputs_end (senv w)) then None
             else Some (Some (NewExitError "failed to set raw terminal" (-1))).
Proof.
  intros Hwin Hraw. cbv zeta. unfold srun, serve, proxyStdio, trace. rewrite Hwin.
  destruct (ctx_Bool context "proxy-stdio"); simpl; rewrite Hraw; simpl; [| done].
  by destruct (outputs_end (senv w)).
Qed.

(** The terminal cannot be set raw: the Action gives up with an ExitError of
    code -1.  It has not started the size monitor or the signal forwarder,
    never asks the agent for the exit code, and restores nothing; the stdio
    goroutines, if asked for, are already started, and the deferred wg.Wait
    still runs, so the Action returns only when the output loops end. *)
Theorem shimCommand_raw_terminal_failure (context : cli_Context) (w : shim_world)
    (err : error) :
  connect (senv w) = None ->
  (ctx_String context "process" = "init" -> SIGUSR1 ∈ arrivals w) ->
  ctx_Bool context "proxy-winsize" = true ->
  raw (senv w) = inr err ->
  let container := ctx_String context "container" in
  let process := ctx_String context "process" in
  let stdio := ctx_Bool context "proxy-stdio" in
  let r := srun (shimCommand_Action context) w in
  trace r = setup_calls context (length (chans w))
            ++ when stdio (stdio_calls container process)
            ++ [Ev (Glog_Infof "using shim to proxy winsize" []) ();
                Ev SetRawTerminal (inr err)]
            ++ when (stdio && outputs_end (senv w)) [Ev WgWait ()] /\
  (stdio = true -> outputs_end (senv w) = false -> result r = None) /\
  (stdio = false \/ outputs_end (senv w) = true ->
     exists e, result r = Some (Some e) /\ exitCode e = -1).
Proof.
  intros Hc Hinit Hwin Hraw. cbv zeta.
  destruct (shimCommand_Action_served (context := context) Hc Hinit)
    as (w' & Henv & _ & Htr & Hres).
  rewrite <- Henv in Hraw.
  destruct (serve_raw_failure (ctx_String context "container")
              (ctx_String context "process") Hwin Hraw) as [Ht Hr].
  rewrite Htr, Hres, Ht, Hr, Henv. split_and!; [done | |].
  - by intros -> ->.
  - intros [-> | ->]; [by eexists |]. rewrite andb_false_r. by eexists.
Qed.

Lemma shimCommand_raw_terminal_failure_witness :
  result (srun (shimCommand_Action (sample_context "p1" ["proxy-stdio"; "proxy-winsize"]))
               (shim_world_of [] (mkShimOracle None (inr EIO) 0 (fun _ => None) None
                                    (fun _ => None) false))) = None.
Proof.
  destruct (@shimCommand_raw_terminal_failure
              (sample_context "p1" ["proxy-stdio"; "proxy-winsize"])
              (shim_world_of [] (mkShimOracle None (inr EIO) 0 (fun _ => None) None
                                   (fun _ => None) false)) EIO)
    as (_ & H & _).
  - reflexivity.
  - vm_compute. discriminate.
  - reflexivity.
  - reflexivity.
  - apply H; reflexivity.
Defined.

(** ** createShim: what a successful launch leaves *)

Lemma do_open_excl_files (name : string) (w w' : world) (f : File) :
  do_open name [O_RDWR; O_CREATE; O_EXCL; O_SYNC] w = (inl f, w') ->
  files w !! name = None /\ fname f = name /\ files w' = <[name := ""]> (files w).
Proof.
  intros H. pose proof (do_open_excl name w) as Ho. unfold pidfile_flags in Ho.
  rewrite H in Ho. by destruct Ho as (? & ? & ? & _).
Qed.

Lemma do_write_files (f : File) (s : string) (w w' : world) :
  do_write f s w = (None, w') ->
  files w' = alter (fun old => old +:+ s) (fname f) (files w).
Proof.
  unfold do_write. destruct (write_fault (os w)) as [[n e] |]; [done |]. by intros [= <-].
Qed.

Lemma do_rename_files (o n : string) (w w' : world) :
  do_rename o n w = (None, w') ->
  exists content, files w !! o = Some content /\
                  files w' = <[n := content]> (delete o (files w)).
Proof.
  unfold do_rename. destruct (files w !! o) as [c |]; [| done].
  destruct (rename_fault (os w)); [done |]. intros [= <-]. by exists c.
Qed.

Lemma do_start_files (w w' : world) (r : Process + error) :
  do_start w = (r, w') ->
  files w' = files w /\
  match r with inl p => spawn (os w) = inl (Pid p) | inr e => spawn (os w) = inr e end.
Proof. unfold do_start. destruct (spawn (os w)); intros [= <- <-]; done. Qed.

(** The file table after open, write, close and rename of a fresh temporary
    name. *)
Lemma pidfile_files (m : gmap string string) (tmp path s : string) :
  m !! tmp = None -> tmp <> path ->
  <[path := "" +:+ s]> (delete tmp (alter (fun old => old +:+ s) tmp (<[tmp := ""]> m)))
  = <[path := s]> m.
Proof.
  intros Hfree Hne. apply map_eq. intros k.
  destruct (decide (k = path)) as [-> | Hk]; [by rewrite !lookup_insert_eq |].
  rewrite !lookup_insert_ne by done.
  destruct (decide (k = tmp)) as [-> | Hk']; [by rewrite lookup_delete_eq |].
  by rewrite lookup_delete_ne, lookup_alter_ne, lookup_insert_ne.
Qed.

Ltac file_facts :=
  repeat match goal with
    | H : do_open _ [O_RDWR; O_CREATE; O_EXCL; O_SYNC] _ = (inl _, _) |- _ =>
        apply do_open_excl_files in H; destruct H as (? & ? & ?)
    | H : do_write _ _ _ = (None, _) |- _ => apply do_write_files in H
    | H : do_rename _ _ _ = (None, _) |- _ =>
        apply do_rename_files in H; destruct H as (? & ? & ?)
    | H : do_start _ = _ |- _ => apply do_start_files in H; destruct H as (? & ?)
    end.

Lemma launch_success (options : runvOptions) (tty : option File) (path : string)
    (args : list string) (w : world) (proc : Process) :
  let r := lrun (launch options tty path args) w in
  let pf := opt_String options "pid-file" in
  result r = Some (inl proc) ->
  spawn (os w) = inl (Pid proc) /\
  (pf = "" -> files (final r) = files w) /\
  (pf <> "" -> tmpName pf <> pf ->
     files w !! tmpName pf = None /\
     files (final r) = <[pf := fmt_d (Pid proc)]> (files w)).
Proof.
  cbv zeta.
  unfold lrun, launch, start_cmd, createPidFile, deferred_close.
  run_cases; intros Hres; simplify_eq/=; file_facts; simpl in *.
  all: split; [done |].
  all: match goal with
       | H : bool_decide (_ <> "") = true |- _ => apply bool_decide_eq_true_1 in H
       | H : bool_decide (_ <> "") = false |- _ =>
           apply bool_decide_eq_false_1 in H; apply dec_stable in H
       end.
  all: split; [intros He; try done; congruence |]; intros Hpf Hne; try done.
  all: repeat match goal with
         | H : fname _ = _ |- _ => rewrite H in *; clear H
         | H : files ?x = _ |- _ => rewrite H in *; clear H
         end.
  all: match goal with
       | H : alter _ _ _ !! _ = Some _ |- _ =>
           rewrite lookup_alter_eq, lookup_insert_eq in H; simpl in H;
           injection H as <-
       end.
  all: split; [done |]; by apply pidfile_files.
Qed.

Lemma launch_child (options : runvOptions) (tty : option File) (path : string)
    (args : list string) (w : world) (proc : Process) :
  result (lrun (launch options tty path args) w) = Some (inl proc) ->
  children (final (lrun (launch options tty path args) w))
  = <[Pid proc := true]> (children w).
Proof.
  launch_cases; intros Hres; simplify_eq/=; same_children; done.
Qed.

(** A createShim that returns a process: the process is the child the OS
    started, and it is left running; without a pid file configured no file
    has changed; with one (whose temporary name is another name), the file
    table is the one before with the child's pid, in decimal, under the pid
    file's path, and nothing is left under the temporary name. *)
Theorem createShim_success (options : runvOptions) (container process : string)
    (spec : specs_Process) (w : world) (proc : Process) :
  let r := lrun (createShim options container process spec) w in
  let pf := opt_String options "pid-file" in
  result r = Some (inl proc) ->
  spawn (os w) = inl (Pid proc) /\
  children (final r) = <[Pid proc := true]> (children w) /\
  (pf = "" -> files (final r) = files w) /\
  (pf <> "" -> tmpName pf <> pf ->
     files (final r) = <[pf := fmt_d (Pid proc)]> (files w) /\
     files (final r) !! pf = Some (fmt_d (Pid proc)) /\
     files (final r) !! tmpName pf = None /\
     atoi <$> files (final r) !! pf = Some (Some (Pid proc))).
Proof.
  cbv zeta. intros Hres.
  destruct (createShim_phases options container process spec w)
    as [(err' & Hr & _) | (tty & path & args & w1 & q & _ & Hch & Hos & Hfs & _ & _ & _ & _ & Hrl & Hfl)];
    [congruence |].
  rewrite Hrl in Hres. rewrite Hfl.
  destruct (launch_success Hres) as (Hsp & Hnone & Hsome).
  rewrite (launch_child Hres), Hch, <- Hos, <- Hfs. split_and!; try done.
  intros Hpf Hne. destruct (Hsome Hpf Hne) as [Hfree ->]. split_and!; try done.
  - by rewrite lookup_insert_eq.
  - by rewrite lookup_insert_ne.
  - rewrite lookup_insert_eq. simpl. by rewrite atoi_fmt_d.
Qed.

Lemma createShim_success_witness :
  let options := mkOptions {["pid-file" := "/run/shim.pid"]} ∅ ∅ false None in
  let r := lrun (createShim options "c1" "init" (mkSpec false)) (world_of ∅ calm) in
  files (final r) !! "/run/shim.pid" = Some "4242".
Proof.
  intros options r.
  assert (result r = Some (inl (mkProcess 4242))) as Hres by (vm_compute; reflexivity).
  destruct (createShim_success Hres) as (_ & _ & _ & H).
  destruct H as (_ & H & _); [vm_compute; discriminate | vm_compute; discriminate | exact H].
Defined.
